(** * girc: channel-mode engine and client lifecycle

    A shallow embedding of the mode/permission engine ([modes.go]) and of
    the connection supervisor of the client ([Client.Connect],
    [Client.Reconnect], [Client.Whowas], [Client.GetNick]), with the
    properties the specification states about them.  The client comes in
    two revisions: module [Client] is the later one, module [Client0] the
    earlier one.

    Conventions.  A Go [byte] is an [ascii] (eight bits), a Go [string] is a
    [string] (a sequence of bytes), a slice is a [list], a Go [int] and a
    [time.Duration] are [Z] (no arithmetic here comes near the 64-bit
    bound).  A [nil] and an empty slice are both the empty list. *)

From Stdlib Require Import String Ascii List ZArith Bool Lia.
Import ListNotations.

Local Open Scope string_scope.
Local Open Scope Z_scope.

(* ================================================================== *)
(** ** Go string primitives used by the sources *)
(* ================================================================== *)

Module GoString.

(** [len(s)] *)
Definition len (s : string) : Z := Z.of_nat (String.length s).

(** [strings.IndexByte(s, c)]: index of the first [c] in [s], or -1. *)
Fixpoint IndexByte_from (i : Z) (s : string) (c : ascii) : Z :=
  match s with
  | EmptyString => -1
  | String b rest =>
      if Ascii.eqb b c then i else IndexByte_from (i + 1) rest c
  end.

Definition IndexByte (s : string) (c : ascii) : Z := IndexByte_from 0 s c.

(** The bytes of a string, in order. *)
Fixpoint bytes (s : string) : list ascii :=
  match s with
  | EmptyString => []
  | String b rest => b :: bytes rest
  end.

Definition byte_val (b : ascii) : Z := Z.of_N (N_of_ascii b).

Definition byte_of (z : Z) : ascii := ascii_of_N (Z.to_N z).

(** The conversion [string(b)] of a [byte]: Go converts an integer to the
    UTF-8 encoding of the code point of that value, so a byte below 0x80
    gives a one-byte string and a byte from 0x80 up gives two bytes. *)
Definition of_byte (b : ascii) : string :=
  let v := byte_val b in
  if v <? 128 then String b EmptyString
  else String (byte_of (Z.lor 192 (Z.shiftr v 6)))
         (String (byte_of (Z.lor 128 (Z.land v 63))) EmptyString).

(** [s[:m]] and [s[m+1:]] around the first occurrence of [sep], when
    there is one ([strings.Index] with a one-byte separator). *)
Fixpoint cut (s : string) (sep : ascii) : option (string * string) :=
  match s with
  | EmptyString => None
  | String b rest =>
      if Ascii.eqb b sep then Some (EmptyString, rest)
      else match cut rest sep with
           | Some (before, after) => Some (String b before, after)
           | None => None
           end
  end.

(** [strings.SplitN(s, sep, n)] for a one-byte separator and [n >= 0]:
    at most [n] substrings, the last one being the unsplit remainder. *)
Fixpoint SplitN (s : string) (sep : ascii) (n : nat) : list string :=
  match n with
  | O => []
  | S O => [s]
  | S n' =>
      match cut s sep with
      | None => [s]
      | Some (before, after) => before :: SplitN after sep n'
      end
  end.

End GoString.

(* ================================================================== *)
(** ** modes.go: [CMode], [CModes] *)
(* ================================================================== *)

Module Modes.
Import GoString.

(** [type CMode struct] *)
Record CMode := mkCMode {
  add : bool;       (* if it's a +, or -. *)
  name : ascii;     (* character representation of the given mode. *)
  setting : bool;   (* a setting (stored) or temporary (op/voice/etc). *)
  args : string     (* arguments to the mode, if arguments are supported. *)
}.

(** [type CModes struct] *)
Record CModes := mkCModes {
  raw : string;            (* raw supported modes. *)
  modesListArgs : string;  (* list modes, with args. *)
  modesArgs : string;      (* modes that support args. *)
  modesSetArgs : string;   (* modes that support args ONLY when set. *)
  modesNoArgs : string;    (* modes that do not support args. *)
  prefixes : string;       (* user permission prefixes. *)
  modes : list CMode       (* the list of modes for this given state. *)
}.

Definition set_modes (c : CModes) (new : list CMode) : CModes :=
  mkCModes (raw c) (modesListArgs c) (modesArgs c) (modesSetArgs c)
           (modesNoArgs c) (prefixes c) new.

(** [func (c *CMode) Short() string] *)
Definition CMode_Short (c : CMode) : string :=
  let status := if add c then "+" else "-" in
  status ++ of_byte (name c).

(** [func (c *CMode) String() string] *)
Definition CMode_String (c : CMode) : string :=
  if len (args c) =? 0 then CMode_Short c
  else CMode_Short c ++ " " ++ args c.

(** The loop of [CModes.String]: it extends the two locals [out] and
    [args] entry by entry. *)
Fixpoint String_loop (ms : list CMode) (out args_ : string)
  : string * string :=
  match ms with
  | [] => (out, args_)
  | m :: rest =>
      let out := out ++ of_byte (name m) in
      let args_ := if 0 <? len (args m) then args_ ++ " " ++ args m
                   else args_ in
      String_loop rest out args_
  end.

(** The locals [out] and [args] of [CModes.String] when its loop ends. *)
Definition String_parts (c : CModes) : string * string :=
  let out := if 0 <? Z.of_nat (length (modes c)) then "+" else "" in
  String_loop (modes c) out "".

(** [func (c *CModes) String() string] *)
Definition CModes_String (c : CModes) : string :=
  let (out, args_) := String_parts c in out ++ args_.

(** [func (c *CModes) HasMode(mode string) bool] *)
Fixpoint HasMode_loop (ms : list CMode) (mode : string) : bool :=
  match ms with
  | [] => false
  | m :: rest =>
      if String.eqb (of_byte (name m)) mode then true
      else HasMode_loop rest mode
  end.

Definition CModes_HasMode (c : CModes) (mode : string) : bool :=
  HasMode_loop (modes c) mode.

(** [func (c *CModes) Get(mode string) (args string, ok bool)] *)
Fixpoint Get_loop (ms : list CMode) (mode : string) : string * bool :=
  match ms with
  | [] => ("", false)
  | m :: rest =>
      if String.eqb (of_byte (name m)) mode then
        if len (args m) =? 0 then ("", false) else (args m, true)
      else Get_loop rest mode
  end.

Definition CModes_Get (c : CModes) (mode : string) : string * bool :=
  Get_loop (modes c) mode.

(** [func (c *CModes) hasArg(set bool, mode byte) (hasArgs, isSetting bool)] *)
Definition CModes_hasArg (c : CModes) (set : bool) (mode : ascii)
  : bool * bool :=
  if len (raw c) <? 1 then (false, true)
  else if IndexByte (modesListArgs c) mode >? -1 then (true, false)
  else if IndexByte (modesArgs c) mode >? -1 then (true, true)
  else if IndexByte (modesSetArgs c) mode >? -1 then
    (if set then (true, true) else (false, true))
  else if IndexByte (prefixes c) mode >? -1 then (true, false)
  else (false, true).

(** First loop of [apply], inner loop over the incoming [modes]: the
    entry that replaces the stored entry [cj] ([isin] with the appended
    value), if the loop breaks. *)
Fixpoint apply_replacement (cj : CMode) (incoming : list CMode)
  : option CMode :=
  match incoming with
  | [] => None
  | mi :: rest =>
      if negb (setting mi) then apply_replacement cj rest   (* continue *)
      else if Ascii.eqb (name cj) (name mi) && add mi then Some mi (* break *)
      else apply_replacement cj rest
  end.

(** First loop of [apply], over the stored entries [c.modes[j]]. *)
Fixpoint apply_stored (stored incoming new : list CMode) : list CMode :=
  match stored with
  | [] => new
  | cj :: rest =>
      match apply_replacement cj incoming with
      | Some mi => apply_stored rest incoming (new ++ [mi])
      | None => apply_stored rest incoming (new ++ [cj])
      end
  end.

(** Second loop of [apply], inner loop: is [mi]'s name in [new]? *)
Fixpoint apply_isin (mi : CMode) (new : list CMode) : bool :=
  match new with
  | [] => false
  | nj :: rest =>
      if Ascii.eqb (name mi) (name nj) then true else apply_isin mi rest
  end.

(** Second loop of [apply], over the incoming [modes[i]]. *)
Fixpoint apply_incoming (incoming new : list CMode) : list CMode :=
  match incoming with
  | [] => new
  | mi :: rest =>
      if negb (setting mi) || negb (add mi) then apply_incoming rest new
      else if apply_isin mi new then apply_incoming rest new
      else apply_incoming rest (new ++ [mi])
  end.

(** [func (c *CModes) apply(modes []CMode)]: the new value of [c.modes]. *)
Definition apply_modes (stored incoming : list CMode) : list CMode :=
  let new := apply_stored stored incoming [] in
  apply_incoming incoming new.

(** [apply] as the update of the receiver. *)
Definition CModes_apply (c : CModes) (incoming : list CMode) : CModes :=
  set_modes c (apply_modes (modes c) incoming).

(** The loop of [parse]: [add] is the polarity in force, [argCount] the
    argument cursor, [out] the result so far. *)
Fixpoint parse_loop (c : CModes) (flags : list ascii) (args_ : list string)
    (add_ : bool) (argCount : nat) (out : list CMode) : list CMode :=
  match flags with
  | [] => out
  | f :: rest =>
      if Ascii.eqb f "+"%char then parse_loop c rest args_ true argCount out
      else if Ascii.eqb f "-"%char
      then parse_loop c rest args_ false argCount out
      else
        let '(hasArgs, isSetting) := CModes_hasArg c add_ f in
        if hasArgs && (argCount + 1 <=? length args_)%nat then
          let mode := mkCMode add_ f isSetting (nth argCount args_ "") in
          parse_loop c rest args_ add_ (S argCount) (out ++ [mode])
        else
          let mode := mkCMode add_ f isSetting "" in
          parse_loop c rest args_ add_ argCount (out ++ [mode])
  end.

(** [func (c *CModes) parse(flags string, args []string) (out []CMode)] *)
Definition CModes_parse (c : CModes) (flags : string) (args_ : list string)
  : list CMode :=
  parse_loop c (bytes flags) args_ true 0 [].

(** [newCModes]: the padding loop that brings [split] to four entries. *)
Definition pad4 (split : list string) : list string :=
  split ++ repeat "" (4 - length split)%nat.

(** [func newCModes(channelModes, userPrefixes string) CModes] *)
Definition newCModes (channelModes userPrefixes : string) : CModes :=
  let split := pad4 (SplitN channelModes ","%char 4) in
  mkCModes channelModes
           (nth 0 split "") (nth 1 split "") (nth 2 split "")
           (nth 3 split "")
           userPrefixes [].

End Modes.

(* ================================================================== *)
(** ** The specification's reading of [merge] and [parseFlags] *)
(* ================================================================== *)

Module ModeSpec.
Import GoString Modes.

(** An incoming change that is both persistent and polarity-add. *)
Definition persistent_add (m : CMode) : bool := setting m && add m.

(** [m] replaces the stored entry [e]. *)
Definition replaces (e m : CMode) : bool :=
  persistent_add m && Ascii.eqb (name e) (name m).

(** The mode character [x] is represented in [l]. *)
Definition represented (x : ascii) (l : list CMode) : bool :=
  existsb (fun e => Ascii.eqb x (name e)) l.

(** (1) every stored entry is kept, unless an incoming persistent add
    of the same character replaces it. *)
Definition merge_kept (existing incoming : list CMode) : list CMode :=
  map (fun e => match find (replaces e) incoming with
                | Some m => m
                | None => e
                end) existing.

(** (2) and (3): an incoming change is appended when it is a persistent
    add whose character is not represented yet, and dropped otherwise. *)
Definition merge_appended (incoming kept : list CMode) : list CMode :=
  fold_left (fun acc m =>
               if persistent_add m && negb (represented (name m) acc)
               then (acc ++ [m])%list else acc)
            incoming kept.

(** [merge(existingSet, incomingChanges)] in the words of the
    specification. *)
Definition merge_spec (existing incoming : list CMode) : list CMode :=
  merge_appended incoming (merge_kept existing incoming).

Definition is_sign (f : ascii) : bool :=
  Ascii.eqb f "+"%char || Ascii.eqb f "-"%char.

(** The mode characters of a flag string, each with the polarity in
    force where it stands. *)
Fixpoint polarities (flags : list ascii) (pol : bool)
  : list (bool * ascii) :=
  match flags with
  | [] => []
  | f :: rest =>
      if Ascii.eqb f "+"%char then polarities rest true
      else if Ascii.eqb f "-"%char then polarities rest false
      else (pol, f) :: polarities rest pol
  end.

(** Arguments go to the mode characters by position: a character that
    takes an argument receives the first argument not used yet. *)
Fixpoint attach (c : CModes) (ms : list (bool * ascii))
    (unused : list string) : list CMode :=
  match ms with
  | [] => []
  | (pol, ch) :: rest =>
      let '(hasArgs, isSetting) := CModes_hasArg c pol ch in
      match hasArgs, unused with
      | true, a :: unused' =>
          mkCMode pol ch isSetting a :: attach c rest unused'
      | _, _ => mkCMode pol ch isSetting "" :: attach c rest unused
      end
  end.

(** [parseFlags(flagString, argumentList)] in the words of the
    specification. *)
Definition parseFlags_spec (c : CModes) (flags : string)
    (args_ : list string) : list CMode :=
  attach c (polarities (bytes flags) true) args_.

(** The modes of [l] that [classify] gives an argument to. *)
Definition wants_arg (c : CModes) (m : CMode) : bool :=
  fst (CModes_hasArg c (add m) (name m)).

(** The mode characters stored in a mode list. *)
Definition names (l : list CMode) : list ascii := map name l.

(** All stored mode characters are ASCII (below 0x80). *)
Definition ascii_names (l : list CMode) : bool :=
  forallb (fun m => byte_val (name m) <? 128) l.

(** The mode sets reachable from a freshly constructed one by [apply]. *)
Inductive reachable (channelModes userPrefixes : string) : CModes -> Prop :=
| reach_new : reachable channelModes userPrefixes
                        (newCModes channelModes userPrefixes)
| reach_apply (c : CModes) (incoming : list CMode) :
    reachable channelModes userPrefixes c ->
    reachable channelModes userPrefixes (CModes_apply c incoming).

(** The byte [x] occurs in [s]. *)
Definition memb (x : ascii) (s : string) : bool :=
  existsb (Ascii.eqb x) (bytes s).

Definition disjointb (a b : string) : bool :=
  forallb (fun x => negb (memb x b)) (bytes a).

(** The four buckets share no character. *)
Definition buckets_disjoint (A B C D : string) : bool :=
  disjointb A B && disjointb A C && disjointb A D
  && disjointb B C && disjointb B D && disjointb C D.

Definition comma_free (s : string) : bool := negb (memb ","%char s).

(** A classification string of the form "A,B,C,D". *)
Definition classification (A B C D : string) : string :=
  (A ++ "," ++ B ++ "," ++ C ++ "," ++ D)%string.

(** [s] cut at every space. *)
Fixpoint tokens (s : string) : list string :=
  match s with
  | EmptyString => [EmptyString]
  | String b rest =>
      if Ascii.eqb b " "%char then EmptyString :: tokens rest
      else match tokens rest with
           | [] => [String b EmptyString]
           | t :: ts => String b t :: ts
           end
  end.

(** Modelled from the spec: the line codec (outside these sources) hands
    a mode line over as its space-separated parameters, the flag string
    first and the arguments after it. *)
Definition fields (line : string) : list string :=
  filter (fun t => negb (String.eqb t "")) (tokens line).

Definition line_flags (line : string) : string := hd "" (fields line).

Definition line_args (line : string) : list string := tl (fields line).

(** An arguments part is empty or starts with a space. *)
Definition spaced (a : string) : Prop :=
  a = EmptyString \/ exists x, a = String " "%char x.

(** [x] is a permission-prefix character of [c] and of none of the
    buckets [hasArg] looks at, under a classification that is not
    empty. *)
Definition prefix_only (c : CModes) (x : ascii) : bool :=
  negb (len (raw c) <? 1)
  && negb (memb x (modesListArgs c)) && negb (memb x (modesArgs c))
  && negb (memb x (modesSetArgs c)) && memb x (prefixes c).

(** Render a mode set, read the line back and merge it into the set. *)
Definition roundtrip (c : CModes) : CModes :=
  let line := CModes_String c in
  CModes_apply c (CModes_parse c (line_flags line) (line_args line)).

End ModeSpec.

(* ================================================================== *)
(** ** client.go (second part of [modes.go]): the client *)
(* ================================================================== *)

Module Client.
Import GoString.

(** [time.Second], in nanoseconds as [time.Duration] counts. *)
Definition Second : Z := 1000000000.

(** [type Event struct], as the client builds and reads it. *)
Record Event := mkEvent {
  Command : string;
  Params : list string;
  Trailing : string;
  Sensitive : bool
}.

(** [type User struct], the fields [Whowas] fills. *)
Record User := mkUser {
  UNick : string;
  UIdent : string;
  UHost : string;
  UName : string
}.

(** The error values the client returns. *)
Inductive error : Type :=
| errorsNew (msg : string)                     (* errors.New(msg) *)
| ErrNotConnected
| ErrAlreadyConnecting
| ErrInvalidTarget (Target : string)
| ErrCallbackTimedout (ID : string) (Timeout : Z)
| ErrTransport (attempt : nat).                (* from net.Dial or Encode *)


(** [type Config struct].  [Conn] is the optional connection of the
    caller, [TLSConfig] tells whether a tls configuration is set. *)
Record Config := mkConfig {
  Server : string;
  Port : Z;
  Password : string;
  Nick : string;
  User_ : string;
  Name : string;
  Conn : option nat;
  TLSConfig : bool;
  MaxRetries : Z;
  ReconnectDelay : Z;
  DisableTracking : bool;
  DisableCapTracking : bool;
  DisableNickCollision : bool
}.

(** The session state, with the fields the client reads and writes. *)
Record state := mkState {
  conn : option nat;
  connected : bool;
  connTime : option Z;
  nick : string;
  hasQuit : bool;
  reconnecting : bool;
  channels : list string
}.

(** Modelled from the spec: [newState] (defined outside these sources)
    gives a fresh session state: no connection, no nickname, not
    connected, not quitting, not reconnecting, no channel. *)
Definition newState : state :=
  mkState None false None "" false false [].

(** Modelled from the spec: the callback registry ([Caller], defined
    outside these sources) holds entries in registration order, each with
    its identifier, the command it filters on and the background flag;
    [register] adds an entry under a new identifier and returns it,
    [remove] deletes the entry registered under an identifier. *)
Record CallbackEntry := mkEntry {
  cb_id : string;
  cb_cmd : string;
  cb_bg : bool
}.

Record Caller := mkCaller {
  entries : list CallbackEntry;
  issued : nat                    (* identifiers handed out so far *)
}.

(** [type Client struct] *)
Record Client := mkClient {
  Config_ : Config;
  state_ : state;
  Callbacks : Caller;
  tries : Z
}.

(** What the client does to the outside, in the order it does it. *)
Inductive action : Type :=
| ActDial (secure : bool) (server : string) (port : Z)  (* net.Dial, tls.Dial *)
| ActEncode (e : Event)                                 (* writer.Encode *)
| ActClose                                              (* conn.Close *)
| ActSleep (d : Z)                                      (* time.Sleep *)
| ActGoReadLoop                                         (* go c.readLoop() *)
| ActStop                                               (* c.quitChan <- *)
| ActCloseEvents.                                       (* close(c.Events) *)

(** The client with the world around it: the actions so far, latest
    last, and the clock [time.Now] reads. *)
Record Sys := mkSys {
  client : Client;
  trace : list action;
  clock : Z
}.

Definition is_dial (a : action) : bool :=
  match a with ActDial _ _ _ => true | _ => false end.

Definition is_encode (a : action) : bool :=
  match a with ActEncode _ => true | _ => false end.

Definition is_stop (a : action) : bool :=
  match a with ActStop => true | _ => false end.

Definition is_sleep (a : action) : bool :=
  match a with ActSleep _ => true | _ => false end.

(** Transport-open calls and events sent, counted on a trace. *)
Definition dials (t : list action) : nat := length (filter is_dial t).
Definition encodes (t : list action) : nat := length (filter is_encode t).
Definition stops (t : list action) : nat := length (filter is_stop t).
Definition sleeps (t : list action) : nat := length (filter is_sleep t).

(** What the sources take from the rest of the package and from the
    network: the protocol constants, the two grammar checks, the
    identifier generator of the registry, and the transport, which
    answers the k-th open attempt with a connection handle or fails, and
    accepts or refuses the k-th write. *)
Record Externals := mkExternals {
  PASS : string;
  NICK : string;
  USER : string;
  QUIT : string;
  WHOWAS : string;
  RPL_WHOWASUSER : string;
  RPL_ENDOFWHOWAS : string;
  IsValidNick : string -> bool;
  IsValidUser : string -> bool;
  cuid : nat -> string;
  dial_result : nat -> option nat;
  encode_ok : nat -> bool
}.

(** *** A state monad over [Sys] *)

Definition M (A : Type) : Type := Sys -> A * Sys.

Definition ret {A} (a : A) : M A := fun s => (a, s).

Definition bind {A B} (m : M A) (k : A -> M B) : M B :=
  fun s => let (a, s') := m s in k a s'.

Declare Scope go_scope.
Delimit Scope go_scope with go.
Notation "x <- m ;; k" := (bind m (fun x => k))
  (at level 61, m at next level, right associativity) : go_scope.
Notation "m ;; k" := (bind m (fun _ => k))
  (at level 61, right associativity) : go_scope.
Local Open Scope go_scope.

Definition get : M Client := fun s => (client s, s).

Definition put (c : Client) : M unit :=
  fun s => (tt, mkSys c (trace s) (clock s)).

Definition emit (a : action) : M unit :=
  fun s => (tt, mkSys (client s) (trace s ++ [a]) (clock s)).

Definition observed : M (list action) := fun s => (trace s, s).

Definition now : M Z := fun s => (clock s, s).

Definition when (b : bool) (m : M unit) : M unit :=
  if b then m else ret tt.

Definition set_state (f : state -> state) : M unit :=
  c <- get ;;
  put (mkClient (Config_ c) (f (state_ c)) (Callbacks c) (tries c)).

Definition set_Config (f : Config -> Config) : M unit :=
  c <- get ;;
  put (mkClient (f (Config_ c)) (state_ c) (Callbacks c) (tries c)).

Definition set_tries (n : Z) : M unit :=
  c <- get ;;
  put (mkClient (Config_ c) (state_ c) (Callbacks c) n).

Definition set_Callbacks (f : Caller -> Caller) : M unit :=
  c <- get ;;
  put (mkClient (Config_ c) (state_ c) (f (Callbacks c)) (tries c)).

Definition with_conn (h : option nat) (s : state) : state :=
  mkState h (connected s) (connTime s) (nick s) (hasQuit s)
          (reconnecting s) (channels s).

Definition with_connected (t : Z) (s : state) : state :=
  mkState (conn s) true (Some t) (nick s) (hasQuit s)
          (reconnecting s) (channels s).

Definition with_nick (n : string) (s : state) : state :=
  mkState (conn s) (connected s) (connTime s) n (hasQuit s)
          (reconnecting s) (channels s).

Definition with_hasQuit (b : bool) (s : state) : state :=
  mkState (conn s) (connected s) (connTime s) (nick s) b
          (reconnecting s) (channels s).

Definition with_reconnecting (b : bool) (s : state) : state :=
  mkState (conn s) (connected s) (connTime s) (nick s) (hasQuit s)
          b (channels s).

Definition with_Name (n : string) (c : Config) : Config :=
  mkConfig (Server c) (Port c) (Password c) (Nick c) (User_ c) n (Conn c)
           (TLSConfig c) (MaxRetries c) (ReconnectDelay c)
           (DisableTracking c) (DisableCapTracking c)
           (DisableNickCollision c).

Definition with_ReconnectDelay (d : Z) (c : Config) : Config :=
  mkConfig (Server c) (Port c) (Password c) (Nick c) (User_ c) (Name c)
           (Conn c) (TLSConfig c) (MaxRetries c) d
           (DisableTracking c) (DisableCapTracking c)
           (DisableNickCollision c).

(** [time.Sleep(d)]: the clock moves on. *)
Definition sleep (d : Z) : M unit :=
  fun s => (tt, mkSys (client s) (trace s ++ [ActSleep d]) (clock s + d)).

Section WithExternals.
Variable X : Externals.

(** [net.Dial] or [tls.Dial]: one transport-open call, answered by the
    transport. *)
Definition dial (secure : bool) (server : string) (port : Z)
  : M (nat + error) :=
  t <- observed ;;
  emit (ActDial secure server port) ;;
  match dial_result X (dials t) with
  | Some h => ret (inl h)
  | None => ret (inr (ErrTransport (dials t)))
  end.

(** [func (c *Client) Send(event *Event) error] *)
Definition Send (e : Event) : M (option error) :=
  t <- observed ;;
  emit (ActEncode e) ;;
  if encode_ok X (encodes t) then ret None
  else ret (Some (ErrTransport (encodes t))).

(** [func (c *Client) IsConnected() (connected bool)] *)
Definition IsConnected : M bool :=
  c <- get ;; ret (connected (state_ c)).

(** [func (c *Client) Quit(message string)] *)
Definition Quit (message : string) : M unit :=
  set_state (with_hasQuit true) ;;
  Send (mkEvent (QUIT X) [] message false) ;;
  c <- get ;;
  when (match conn (state_ c) with Some _ => true | None => false end)
       (emit ActClose) ;;
  (* deferred: unset hasQuit, so we can reconnect if we want to *)
  set_state (with_hasQuit false).

(** [func (c *Client) Stop()] *)
Definition Stop : M unit := emit ActStop.

(** [func (c *Client) connectMessages() (events []*Event)] *)
Definition connectMessages : M (list Event) :=
  c <- get ;;
  let events :=
    if negb (String.eqb (Password (Config_ c)) "")
    then [mkEvent (PASS X) [Password (Config_ c)] "" false] else [] in
  let events :=
    (events ++ [mkEvent (NICK X) [Nick (Config_ c)] "" false])%list in
  when (String.eqb (Name (Config_ c)) "")
       (set_Config (with_Name (User_ (Config_ c)))) ;;
  c <- get ;;
  ret (events ++ [mkEvent (USER X) [User_ (Config_ c); "+iw"; "*"]
                          (Name (Config_ c)) false])%list.

(** The loop of [Connect] that sends the handshake: it returns at the
    first event that cannot be sent. *)
Fixpoint send_all (events : list Event) : M (option error) :=
  match events with
  | [] => ret None
  | e :: rest =>
      err <- Send e ;;
      match err with
      | Some x => ret (Some x)
      | None => send_all rest
      end
  end.

(** [func (c *Client) Connect() error] *)
Definition Connect : M (option error) :=
  c <- get ;;
  (* Sanity check a few options. *)
  if String.eqb (Server (Config_ c)) "" then
    ret (Some (errorsNew "invalid server specified"))
  else if (Port (Config_ c) <? 21) || (Port (Config_ c) >? 65535) then
    ret (Some (errorsNew "invalid port (21-65535)"))
  else if negb (IsValidNick X (Nick (Config_ c)))
          || negb (IsValidUser X (User_ (Config_ c))) then
    ret (Some (errorsNew "invalid nickname or user"))
  else
    (* Reset the state. *)
    set_state (fun _ => newState) ;;
    r <- match Conn (Config_ c) with
         | None =>
             r <- dial (TLSConfig (Config_ c))
                       (Server (Config_ c)) (Port (Config_ c)) ;;
             match r with
             | inr err => ret (Some err)
             | inl h => set_state (with_conn (Some h)) ;; ret None
             end
         | Some h => set_state (with_conn (Some h)) ;; ret None
         end ;;
    match r with
    | Some err => ret (Some err)
    | None =>
        events <- connectMessages ;;
        err <- send_all events ;;
        match err with
        | Some x => ret (Some x)
        | None =>
            emit ActGoReadLoop ;;
            (* Consider the connection a success at this point. *)
            set_tries 0 ;;
            ctime <- now ;;
            set_state (with_connected ctime) ;;
            ret None
        end
    end.

(** The retry loop of [Reconnect],
    [for ...; err != nil && c.tries < c.Config.MaxRetries; c.tries++],
    after its init statement.  [fuel] bounds the iterations; the loop
    answers [false] only if it is cut short by it. *)
Fixpoint retry_loop (fuel : nat) (err : option error) : M bool :=
  c <- get ;;
  if match err with Some _ => true | None => false end
     && (tries c <? MaxRetries (Config_ c))
  then
    match fuel with
    | O => ret false
    | S fuel' =>
        set_state (with_reconnecting true) ;;
        sleep (ReconnectDelay (Config_ c)) ;;
        c <- get ;;
        set_tries (tries c + 1) ;;
        retry_loop fuel' err
    end
  else ret true.

(** [func (c *Client) Reconnect() (err error)].  The result is [None]
    only if [fuel] iterations do not end the retry loop. *)
Definition Reconnect_fuel (fuel : nat) : M (option (option error)) :=
  c <- get ;;
  if reconnecting (state_ c) then ret (Some (Some ErrAlreadyConnecting))
  else
    (* Doesn't need to be set to false because a connect should reset it. *)
    set_state (with_reconnecting true) ;;
    c <- get ;;
    if hasQuit (state_ c) then ret (Some None)
    else
      when (ReconnectDelay (Config_ c) <? 10 * Second)
           (set_Config (with_ReconnectDelay (10 * Second))) ;;
      isc <- IsConnected ;;
      when isc (Quit "reconnecting...") ;;
      c <- get ;;
      if MaxRetries (Config_ c) >? 0 then
        sleep (ReconnectDelay (Config_ c)) ;;
        err <- Connect ;;
        finished <- retry_loop fuel err ;;
        if finished then
          when (match err with Some _ => true | None => false end) Stop ;;
          ret (Some err)
        else ret None
      else
        emit ActCloseEvents ;;
        ret (Some None).

(** [Reconnect] with the fuel its retry loop needs: the distance of
    [tries] from [MaxRetries]. *)
Definition Reconnect : M (option (option error)) :=
  c <- get ;;
  Reconnect_fuel (Z.to_nat (MaxRetries (Config_ c) - tries c)).

(** [readLoop], the iteration in which [Decode] fails: after the guard
    at the head of the loop it hands over to [Reconnect] and returns. *)
Definition readLoop_read_error : M (option (option error)) :=
  c <- get ;;
  if reconnecting (state_ c) || hasQuit (state_ c)
  then ret (Some (Some ErrNotConnected))
  else Reconnect.

(** [func (c *Client) GetNick() (nick string)]; [None] is the panic. *)
Definition GetNick (c : Client) : option string :=
  if DisableTracking (Config_ c) then None
  else if String.eqb (nick (state_ c)) "" then Some (Nick (Config_ c))
  else Some (nick (state_ c)).

(** [func (c *Client) Nick(name string) error] *)
Definition Nick_ (name : string) : M (option error) :=
  isc <- IsConnected ;;
  if negb isc then ret (Some ErrNotConnected)
  else if negb (IsValidNick X name) then ret (Some (ErrInvalidTarget name))
  else
    set_state (with_nick name) ;;
    Send (mkEvent (NICK X) [name] "" false).

(** Modelled from the spec: [Callbacks.AddBg(cmd, handler)] registers a
    background entry for [cmd] under the next identifier and returns
    that identifier. *)
Definition AddBg (cmd : string) : M string :=
  c <- get ;;
  let id := cuid X (issued (Callbacks c)) in
  set_Callbacks (fun r =>
    mkCaller (entries r ++ [mkEntry id cmd true]) (S (issued r))) ;;
  ret id.

(** Modelled from the spec: [Callbacks.Remove(id)] deletes the entry
    registered under [id]. *)
Definition Remove (id : string) : M unit :=
  set_Callbacks (fun r =>
    mkCaller (filter (fun e => negb (String.eqb (cb_id e) id)) (entries r))
             (issued r)).

(** The handler [Whowas] registers for RPL_WHOWASUSER: does it append
    the event to [events]? *)
Definition whoCb_accepts (nick_ : string) (e : Event) : bool :=
  if negb (length (Params e) =? 5)%nat then false
  else if negb (String.eqb (nth 1 (Params e) "") nick_) then false
  else true.

(** The handler [Whowas] registers for RPL_ENDOFWHOWAS: does it send
    on [whoDone]? *)
Definition whoDoneCb_signals (nick_ : string) (e : Event) : bool :=
  if negb (length (Params e) =? 2)%nat then false
  else if negb (String.eqb (nth 1 (Params e) "") nick_) then false
  else true.

(** The [select] of [Whowas].  [inbound] are the events dispatched to
    the callbacks before the two seconds are over, in order; each one
    runs the handlers registered for its command.  The answer is the
    collected [events] and whether [whoDone] was signalled (otherwise
    the timer fires). *)
Fixpoint Whowas_wait (nick_ : string) (inbound events : list Event)
  : list Event * bool :=
  match inbound with
  | [] => (events, false)
  | e :: rest =>
      let events :=
        if String.eqb (Command e) (RPL_WHOWASUSER X)
           && whoCb_accepts nick_ e
        then (events ++ [e])%list else events in
      if String.eqb (Command e) (RPL_ENDOFWHOWAS X)
         && whoDoneCb_signals nick_ e
      then (events, true)
      else Whowas_wait nick_ rest events
  end.


(** The final loop of [Whowas]: one [User] for each collected event. *)
Definition Whowas_users (events : list Event) : list User :=
  map (fun e => mkUser (nth 1 (Params e) "") (nth 2 (Params e) "")
                       (nth 3 (Params e) "") (Trailing e)) events.

(** [func (c *Client) Whowas(nick string) ([]*User, error)] *)
Definition Whowas (nick_ : string) (inbound : list Event)
  : M (list User * option error) :=
  if negb (IsValidNick X nick_) then
    ret ([], Some (ErrInvalidTarget nick_))
  else
    isc <- IsConnected ;;
    if negb isc then ret ([], Some ErrNotConnected)
    else
      whoCb <- AddBg (RPL_WHOWASUSER X) ;;
      whoDoneCb <- AddBg (RPL_ENDOFWHOWAS X) ;;
      (* Send the WHOWAS query. *)
      Send (mkEvent (WHOWAS X) [nick_; "10"] "" false) ;;
      let (events, done) := Whowas_wait nick_ inbound [] in
      if done then
        Remove whoCb ;;
        Remove whoDoneCb ;;
        ret (Whowas_users events, None)
      else
        (* Remove callbacks and return. Took too long. *)
        Remove whoCb ;;
        Remove whoDoneCb ;;
        ret ([], Some (ErrCallbackTimedout
                         (whoCb ++ " + " ++ whoDoneCb) (Second * 2))).

End WithExternals.

(** Unfolds the monad of [M], to run a definition on a state. *)
Ltac run :=
  unfold bind, ret, get, put, emit, observed, now, when, set_state,
    set_Config, set_tries, set_Callbacks, sleep in *;
  simpl in *.

End Client.

(* ================================================================== *)
(** ** The earlier revision of the client (unnamed source part) *)
(* ================================================================== *)

Module Client0.
Import GoString.
Import Client(Event, mkEvent, error, errorsNew, ErrTransport, action,
              ActDial, ActEncode, ActClose, ActSleep, ActGoReadLoop,
              ActCloseEvents, dials, encodes, Externals, dial_result,
              encode_ok, PASS, NICK, USER, Second).

(** [time.Millisecond] *)
Definition Millisecond : Z := 1000000.

(** [type Config struct] of this revision. *)
Record Config := mkConfig {
  Server : string;
  Port : Z;
  Password : string;
  Nick : string;
  User_ : string;
  Name : string;
  TLSConfig : bool;
  MaxRetries : Z;
  DisableHelpers : bool
}.

(** The session state of this revision, with the fields the client
    touches. *)
Record State := mkState {
  connected : bool;
  nick : string
}.

(** Modelled from the spec: [NewState] (defined outside these sources)
    gives a fresh session state. *)
Definition NewState : State := mkState false "".

(** [type Client struct], with the trace of what it did to the outside. *)
Record Client := mkClient {
  Config_ : Config;
  State_ : State;
  conn : option nat;
  tries : Z;
  trace : list action
}.

Definition emit (a : action) (c : Client) : Client :=
  mkClient (Config_ c) (State_ c) (conn c) (tries c) (trace c ++ [a]).

Definition with_Name (n : string) (c : Client) : Client :=
  mkClient (mkConfig (Server (Config_ c)) (Port (Config_ c))
              (Password (Config_ c)) (Nick (Config_ c)) (User_ (Config_ c))
              n (TLSConfig (Config_ c)) (MaxRetries (Config_ c))
              (DisableHelpers (Config_ c)))
           (State_ c) (conn c) (tries c) (trace c).

Section WithExternals.
Variable X : Externals.

(** [func (c *Client) Send(event *Event) error] *)
Definition Send (e : Event) (c : Client) : option error * Client :=
  let k := encodes (trace c) in
  (if encode_ok X k then None else Some (ErrTransport k),
   emit (ActEncode e) c).

(** [func (c *Client) connectMessages() []*Event] *)
Definition connectMessages (c : Client) : list Event * Client :=
  let events :=
    if negb (String.eqb (Password (Config_ c)) "")
    then [mkEvent (PASS X) [Password (Config_ c)] "" false] else [] in
  let events :=
    (events ++ [mkEvent (NICK X) [Nick (Config_ c)] "" false])%list in
  let c := if String.eqb (Name (Config_ c)) ""
           then with_Name (User_ (Config_ c)) c else c in
  ((events ++ [mkEvent (USER X) [User_ (Config_ c); "+iw"; "*"]
                       (Name (Config_ c)) false])%list, c).

Fixpoint send_all (events : list Event) (c : Client)
  : option error * Client :=
  match events with
  | [] => (None, c)
  | e :: rest =>
      match Send e c with
      | (Some x, c') => (Some x, c')
      | (None, c') => send_all rest c'
      end
  end.

(** [func (c *Client) Connect() error] *)
Definition Connect (c : Client) : option error * Client :=
  if String.eqb (Server (Config_ c)) "" || (Port (Config_ c) =? 0)
     || String.eqb (Nick (Config_ c)) ""
     || String.eqb (User_ (Config_ c)) ""
  then (Some (errorsNew "invalid configuration (server/port/nick/user)"),
        c)
  else
    (* reset our state here *)
    let c := mkClient (Config_ c) NewState (conn c) (tries c) (trace c) in
    let k := dials (trace c) in
    let c := emit (ActDial (TLSConfig (Config_ c)) (Server (Config_ c))
                           (Port (Config_ c))) c in
    match dial_result X k with
    | None => (Some (ErrTransport k), c)
    | Some h =>
        let c := mkClient (Config_ c) (State_ c) (Some h) (tries c)
                          (trace c) in
        let (events, c) := connectMessages c in
        match send_all events c with
        | (Some x, c) => (Some x, c)
        | (None, c) =>
            let c := mkClient (Config_ c) (State_ c) (conn c) 0
                              (trace c) in
            let c := emit ActGoReadLoop c in
            (* consider the connection a success at this point *)
            (None, mkClient (Config_ c)
                            (mkState true (nick (State_ c)))
                            (conn c) (tries c) (trace c))
        end
    end.

(** The pause of the retry loop, [2^tries * 200] milliseconds (the
    source computes the power in floating point, exactly for the
    small [tries] that occur). *)
Definition backoff (n : Z) : Z := 2 ^ n * 200 * Millisecond.

(** The retry loop of [Reconnect] after its init statement; [None] only
    if [fuel] iterations do not end it. *)
Fixpoint retry_loop (fuel : nat) (err : option error) (c : Client)
  : option Client :=
  if match err with Some _ => true | None => false end
     && (tries c <? MaxRetries (Config_ c))
  then
    match fuel with
    | O => None
    | S fuel' =>
        let c := emit (ActSleep (backoff (tries c))) c in
        let c := mkClient (Config_ c) (State_ c) (conn c) (tries c + 1)
                          (trace c) in
        retry_loop fuel' err c
    end
  else Some c.

(** [func (c *Client) Reconnect() error] *)
Definition Reconnect (c : Client) : option (option error * Client) :=
  if MaxRetries (Config_ c) >? 0 then
    let c := emit ActClose c in
    let c := emit (ActSleep (10 * Second)) c in
    let (err, c) := Connect c in
    match retry_loop (Z.to_nat (MaxRetries (Config_ c) - tries c)) err c
    with
    | Some c => Some (err, c)
    | None => None
    end
  else Some (None, emit ActCloseEvents c).

(** [func (c *Client) GetNick() string] *)
Definition GetNick (c : Client) : string :=
  if String.eqb (nick (State_ c)) "" then Nick (Config_ c)
  else nick (State_ c).

End WithExternals.

End Client0.

(* ================================================================== *)
(** ** A concrete client, for running the definitions *)
(* ================================================================== *)

Module Sample.
Import Client.

(** The protocol constants of RFC 1459, grammar checks that refuse the
    empty string, and a transport on which every open attempt fails and
    every write on an open connection passes. *)
Definition failing_transport : Externals :=
  mkExternals "PASS" "NICK" "USER" "QUIT" "WHOWAS" "314" "369"
    (fun s => negb (String.eqb s ""))
    (fun s => negb (String.eqb s ""))
    (fun n => String (ascii_of_nat (97 + n)) "")
    (fun _ => None)
    (fun _ => true).

(** A valid configuration with [MaxRetries] 2. *)
Definition config : Config :=
  mkConfig "irc.example.org" 6667 "" "girc" "girc" "" None false 2
           (10 * Second) false false false.

(** A connected client that has done nothing yet. *)
Definition connected_client : Sys :=
  mkSys (mkClient config
           (mkState (Some 0%nat) true (Some 0) "" false false [])
           (mkCaller [] 0) 0)
        [] 0.

(** The same configuration in the earlier revision, connected. *)
Definition connected_client0 : Client0.Client :=
  Client0.mkClient
    (Client0.mkConfig "irc.example.org" 6667 "" "girc" "girc" "" false 2
                      false)
    (Client0.mkState true "") (Some 0%nat) 0 [].

End Sample.

(* ================================================================== *)
(** ** modes.go: validation of server options, user permissions *)
(* ================================================================== *)

Module Validation.
Import GoString.

(** [s[lo:]] for [0 <= lo <= len(s)]. *)
Fixpoint drop (n : nat) (s : string) : string :=
  match n, s with
  | O, _ => s
  | S n', String _ rest => drop n' rest
  | S _, EmptyString => EmptyString
  end.

(** [s[:hi]] for [0 <= hi <= len(s)]. *)
Fixpoint take (n : nat) (s : string) : string :=
  match n, s with
  | O, _ => EmptyString
  | S n', String b rest => String b (take n' rest)
  | S _, EmptyString => EmptyString
  end.

(** [s[lo:hi]] for [0 <= lo <= hi <= len(s)], the only way the sources
    slice. *)
Definition slice (s : string) (lo hi : Z) : string :=
  take (Z.to_nat (hi - lo)) (drop (Z.to_nat lo) s).

Definition slice_from (s : string) (lo : Z) : string :=
  drop (Z.to_nat lo) s.

(** The test of the loop of [isValidChannelMode]: the byte is neither a
    comma nor a letter A-Z or a-z. *)
Definition not_mode_byte (b : ascii) : bool :=
  negb (byte_val b =? 44)
  && ((byte_val b <? 65) || (byte_val b >? 90))
  && ((byte_val b <? 97) || (byte_val b >? 122)).

Fixpoint isValidChannelMode_loop (raw : list ascii) : bool :=
  match raw with
  | [] => true
  | b :: rest =>
      if not_mode_byte b then false else isValidChannelMode_loop rest
  end.

(** [func isValidChannelMode(raw string) bool] *)
Definition isValidChannelMode (raw : string) : bool :=
  if len raw <? 1 then false
  else isValidChannelMode_loop (bytes raw).

(** The loop of [isValidUserPrefix], from index 1 on, with its three
    locals. *)
Fixpoint isValidUserPrefix_loop (raw : list ascii) (keys rep : Z)
    (passedKeys : bool) : Z * Z :=
  match raw with
  | [] => (keys, rep)
  | b :: rest =>
      if byte_val b =? 41 then isValidUserPrefix_loop rest keys rep true
      else if passedKeys
           then isValidUserPrefix_loop rest keys (rep + 1) passedKeys
           else isValidUserPrefix_loop rest (keys + 1) rep passedKeys
  end.

(** [func isValidUserPrefix(raw string) bool] *)
Definition isValidUserPrefix (raw : string) : bool :=
  match raw with
  | EmptyString => false
  | String b rest =>
      if negb (byte_val b =? 40) then false
      else
        let (keys, rep) := isValidUserPrefix_loop (bytes rest) 0 0 false in
        keys =? rep
  end.

(** [func parsePrefixes(raw string) (modes, prefixes string)] *)
Definition parsePrefixes (raw : string) : string * string :=
  if negb (isValidUserPrefix raw) then ("", "")
  else
    let i := IndexByte raw ")"%char in
    if i <? 1 then ("", "")
    else (slice raw 1 i, slice_from raw (i + 1)).

End Validation.

Module Perms.
Import GoString Modes.

(** [type UserPerms struct] *)
Record UserPerms := mkPerms {
  Owner : bool;
  Admin : bool;
  Op : bool;
  HalfOp : bool;
  Voice : bool
}.

(** The prefix symbols and the mode characters of the five grants,
    constants of the package that these sources do not define. *)
Record PermConsts := mkPermConsts {
  OwnerPrefix : string;
  AdminPrefix : string;
  OperatorPrefix : string;
  HalfOperatorPrefix : string;
  VoicePrefix : string;
  ModeOwner : string;
  ModeAdmin : string;
  ModeOperator : string;
  ModeHalfOperator : string;
  ModeVoice : string
}.

(** [func (m UserPerms) IsAdmin() bool] *)
Definition IsAdmin (m : UserPerms) : bool :=
  if Owner m || Admin m || Op m then true else false.

(** [func (m UserPerms) IsTrusted() bool] *)
Definition IsTrusted (m : UserPerms) : bool :=
  if IsAdmin m || HalfOp m || Voice m then true else false.

(** [func (m *UserPerms) reset()] *)
Definition reset (m : UserPerms) : UserPerms :=
  mkPerms false false false false false.

Section WithConsts.
Variable K : PermConsts.

(** The [switch] of [set] on one byte of the prefix. *)
Definition set_byte (m : UserPerms) (b : ascii) : UserPerms :=
  let char := of_byte b in
  if String.eqb char (OwnerPrefix K)
  then mkPerms true (Admin m) (Op m) (HalfOp m) (Voice m)
  else if String.eqb char (AdminPrefix K)
  then mkPerms (Owner m) true (Op m) (HalfOp m) (Voice m)
  else if String.eqb char (OperatorPrefix K)
  then mkPerms (Owner m) (Admin m) true (HalfOp m) (Voice m)
  else if String.eqb char (HalfOperatorPrefix K)
  then mkPerms (Owner m) (Admin m) (Op m) true (Voice m)
  else if String.eqb char (VoicePrefix K)
  then mkPerms (Owner m) (Admin m) (Op m) (HalfOp m) true
  else m.

Fixpoint set_loop (m : UserPerms) (prefix : list ascii) : UserPerms :=
  match prefix with
  | [] => m
  | b :: rest => set_loop (set_byte m b) rest
  end.

(** [func (m *UserPerms) set(prefix string, append bool)] *)
Definition set (m : UserPerms) (prefix : string) (append : bool)
  : UserPerms :=
  let m := if negb append then reset m else m in
  set_loop m (bytes prefix).

(** [func (m *UserPerms) setFromMode(mode CMode)] *)
Definition setFromMode (m : UserPerms) (mode : CMode) : UserPerms :=
  let char := of_byte (name mode) in
  if String.eqb char (ModeOwner K)
  then mkPerms (add mode) (Admin m) (Op m) (HalfOp m) (Voice m)
  else if String.eqb char (ModeAdmin K)
  then mkPerms (Owner m) (add mode) (Op m) (HalfOp m) (Voice m)
  else if String.eqb char (ModeOperator K)
  then mkPerms (Owner m) (Admin m) (add mode) (HalfOp m) (Voice m)
  else if String.eqb char (ModeHalfOperator K)
  then mkPerms (Owner m) (Admin m) (Op m) (add mode) (Voice m)
  else if String.eqb char (ModeVoice K)
  then mkPerms (Owner m) (Admin m) (Op m) (HalfOp m) (add mode)
  else m.

(** The test of [parseUserPrefix] on one byte: its string is one of the
    five prefix symbols. *)
Definition is_prefix_symbol (b : ascii) : bool :=
  let char := of_byte b in
  String.eqb char (OwnerPrefix K) || String.eqb char (AdminPrefix K)
  || String.eqb char (HalfOperatorPrefix K)
  || String.eqb char (OperatorPrefix K) || String.eqb char (VoicePrefix K).

(** The loop of [parseUserPrefix] over [raw[i:]], with the result [modes]
    built so far. *)
Fixpoint parseUserPrefix_loop (raw : string) (modes_ : string)
  : string * string * bool :=
  match raw with
  | EmptyString => (modes_, "", false)
  | String b rest =>
      if is_prefix_symbol b
      then parseUserPrefix_loop rest (modes_ ++ of_byte b)
      else (modes_, raw, true)
  end.

(** [func parseUserPrefix(raw string) (modes, nick string, success bool)] *)
Definition parseUserPrefix (raw : string) : string * string * bool :=
  parseUserPrefix_loop raw "".

End WithConsts.

(** The symbols and mode characters in common use. *)
Definition usual : PermConsts :=
  mkPermConsts "~" "&" "@" "%" "+" "q" "a" "o" "h" "v".

End Perms.

(* ================================================================== *)
(** ** modes.go: the modes of a tracked channel *)
(* ================================================================== *)

Module Channel.
Import GoString Modes Validation.

Section WithOptions.
(** The server options of the session state (a map from option name to
    value) and the two fall-back constants of the package. *)
Variable serverOptions : string -> option string.
Variable ModeDefaults DefaultPrefixes : string.

(** [func (s *state) chanModes() string] *)
Definition chanModes : string :=
  match serverOptions "CHANMODES" with
  | Some modes_ => if isValidChannelMode modes_ then modes_ else ModeDefaults
  | None => ModeDefaults
  end.

(** [func (s *state) userPrefixes() string] *)
Definition userPrefixes : string :=
  match serverOptions "PREFIX" with
  | Some prefix => if isValidUserPrefix prefix then prefix
                   else DefaultPrefixes
  | None => DefaultPrefixes
  end.

End WithOptions.

(** What [handleMODE] does to the modes of the channel it found: it parses
    the flags and arguments under the channel's own tables and applies the
    result. *)
Definition handleMODE_modes (c : CModes) (flags : string)
    (args_ : list string) : CModes :=
  CModes_apply c (CModes_parse c flags args_).

(** The mode sets a channel goes through, from [newCModes] on, one MODE
    event after the other. *)
Inductive tracked (channelModes userPrefixes_ : string) : CModes -> Prop :=
| tracked_new :
    tracked channelModes userPrefixes_ (newCModes channelModes userPrefixes_)
| tracked_mode (c : CModes) (flags : string) (args_ : list string) :
    tracked channelModes userPrefixes_ c ->
    tracked channelModes userPrefixes_ (handleMODE_modes c flags args_).

End Channel.

(* ================================================================== *)
(** ** client.go: the outbound actions *)
(* ================================================================== *)

Module ClientOps.
Import GoString Client.
Local Open Scope go_scope.

(** What the actions take from the rest of the package: the channel
    grammar check, the event parser and four more protocol constants. *)
Record Externals2 := mkExternals2 {
  IsValidChannel : string -> bool;
  ParseEvent : string -> option Event;
  JOIN : string;
  PRIVMSG : string;
  NOTICE : string;
  TOPIC : string
}.

Section WithExternals.
Variable X : Externals.
Variable Y : Externals2.

(** [func (c *Client) Uptime() (up *time.Time, err error)] *)
Definition Uptime : M (option Z * option error) :=
  isc <- IsConnected ;;
  if negb isc then ret (None, Some ErrNotConnected)
  else
    c <- get ;;
    ret (connTime (state_ c), None).

(** [func (c *Client) Join(channel, password string) error] *)
Definition Join (channel password : string) : M (option error) :=
  if negb (IsValidChannel Y channel) then
    ret (Some (ErrInvalidTarget channel))
  else
    isc <- IsConnected ;;
    if negb isc then ret (Some ErrNotConnected)
    else if negb (String.eqb password "") then
      Send X (mkEvent (JOIN Y) [channel; password] "" false)
    else Send X (mkEvent (JOIN Y) [channel] "" false).

(** [func (c *Client) Part(channel, message string) error] *)
Definition Part (channel message : string) : M (option error) :=
  if negb (IsValidChannel Y channel) then
    ret (Some (ErrInvalidTarget channel))
  else
    isc <- IsConnected ;;
    if negb isc then ret (Some ErrNotConnected)
    else if negb (String.eqb message "") then
      Send X (mkEvent (JOIN Y) [channel] message false)
    else Send X (mkEvent (JOIN Y) [channel] "" false).

(** [func (c *Client) Message(target, message string) error] *)
Definition Message (target message : string) : M (option error) :=
  if negb (IsValidNick X target) && negb (IsValidChannel Y target) then
    ret (Some (ErrInvalidTarget target))
  else
    isc <- IsConnected ;;
    if negb isc then ret (Some ErrNotConnected)
    else Send X (mkEvent (PRIVMSG Y) [target] message false).

(** The trailing text of [Action]: the message between two 0x01 bytes,
    after the word ACTION. *)
Definition action_text (message : string) : string :=
  (String "001"%char ("ACTION " ++ message ++ String "001"%char ""))%string.

(** [func (c *Client) Action(target, message string) error] *)
Definition Action (target message : string) : M (option error) :=
  if negb (IsValidNick X target) && negb (IsValidChannel Y target) then
    ret (Some (ErrInvalidTarget target))
  else
    isc <- IsConnected ;;
    if negb isc then ret (Some ErrNotConnected)
    else Send X (mkEvent (PRIVMSG Y) [target] (action_text message) false).

(** [func (c *Client) Notice(target, message string) error] *)
Definition Notice (target message : string) : M (option error) :=
  if negb (IsValidNick X target) && negb (IsValidChannel Y target) then
    ret (Some (ErrInvalidTarget target))
  else
    isc <- IsConnected ;;
    if negb isc then ret (Some ErrNotConnected)
    else Send X (mkEvent (NOTICE Y) [target] message false).

(** [func (c *Client) SendRaw(raw string) error] *)
Definition SendRaw (raw_ : string) : M (option error) :=
  match ParseEvent Y raw_ with
  | None => ret (Some (errorsNew ("invalid event: " ++ raw_)))
  | Some e =>
      isc <- IsConnected ;;
      if negb isc then ret (Some ErrNotConnected)
      else Send X e
  end.

(** [func (c *Client) Topic(channel, message string) error] *)
Definition Topic (channel message : string) : M (option error) :=
  Send X (mkEvent (TOPIC Y) [channel] message false).

End WithExternals.

(** Grammar checks and constants to run the actions with: a channel name
    starts with [#]. *)
Definition sample_actions : Externals2 :=
  mkExternals2
    (fun s => match s with String "#" _ => true | _ => false end)
    (fun s => match s with
              | EmptyString => None
              | _ => Some (mkEvent s [] "" false)
              end)
    "JOIN" "PRIVMSG" "NOTICE" "TOPIC".

(** A transport on which every open attempt and every write passes. *)
Definition working_transport : Externals :=
  mkExternals "PASS" "NICK" "USER" "QUIT" "WHOWAS" "314" "369"
    (fun s => negb (String.eqb s ""))
    (fun s => negb (String.eqb s ""))
    (fun n => String (ascii_of_nat (97 + n)) "")
    (fun n => Some n)
    (fun _ => true).

(** A client that was never connected, with the sample configuration and
    a server password. *)
Definition fresh_client : Sys :=
  mkSys (mkClient
           (mkConfig "irc.example.org" 6667 "secret" "girc" "girc" "" None
                     false 2 0 false false false)
           newState (mkCaller [] 0) 0)
        [] 7.

End ClientOps.

(* ================================================================== *)
(** ** Properties *)
(* ================================================================== *)

Local Open Scope list_scope.

Module ModeFacts.
Import GoString Modes ModeSpec.

Lemma apply_replacement_find (cj : CMode) (incoming : list CMode) :
  apply_replacement cj incoming = find (replaces cj) incoming.
Proof.
  induction incoming as [|mi rest IH]; simpl; [reflexivity|].
  unfold replaces, persistent_add.
  destruct (setting mi), (add mi), (Ascii.eqb (name cj) (name mi));
    simpl; auto.
Qed.

Lemma apply_stored_kept (stored incoming new : list CMode) :
  apply_stored stored incoming new = new ++ merge_kept stored incoming.
Proof.
  revert new.
  induction stored as [|cj rest IH]; intros new; simpl.
  - now rewrite app_nil_r.
  - rewrite apply_replacement_find.
    destruct (find (replaces cj) incoming);
      rewrite IH, <- app_assoc; reflexivity.
Qed.

Lemma apply_isin_represented (mi : CMode) (new : list CMode) :
  apply_isin mi new = represented (name mi) new.
Proof.
  induction new as [|nj rest IH]; simpl; [reflexivity|].
  destruct (Ascii.eqb (name mi) (name nj)); simpl; auto.
Qed.

Lemma apply_incoming_appended (incoming new : list CMode) :
  apply_incoming incoming new = merge_appended incoming new.
Proof.
  revert new.
  induction incoming as [|mi rest IH]; intros new; simpl; [reflexivity|].
  unfold merge_appended in *. simpl.
  rewrite apply_isin_represented. unfold persistent_add.
  destruct (setting mi), (add mi), (represented (name mi) new);
    simpl; apply IH.
Qed.

Lemma apply_modes_merge (stored incoming : list CMode) :
  apply_modes stored incoming = merge_spec stored incoming.
Proof.
  unfold apply_modes, merge_spec.
  now rewrite apply_stored_kept, apply_incoming_appended.
Qed.

(** What the second loop appends: persistent adds of the incoming list,
    none of them represented before. *)
Lemma merge_appended_shape (incoming kept : list CMode) :
  exists appended,
    merge_appended incoming kept = kept ++ appended
    /\ forall m, In m appended ->
         In m incoming /\ persistent_add m = true
         /\ represented (name m) kept = false.
Proof.
  revert kept.
  induction incoming as [|mi rest IH]; intros kept.
  - exists []. split; [now rewrite app_nil_r | intros m []].
  - unfold merge_appended in *. simpl.
    destruct (persistent_add mi && negb (represented (name mi) kept))
      eqn:E.
    + destruct (IH (kept ++ [mi])) as (app' & Heq & Hall).
      exists (mi :: app'). split.
      * rewrite Heq, <- app_assoc. reflexivity.
      * apply andb_true_iff in E. destruct E as [Hp Hr].
        apply negb_true_iff in Hr.
        intros m [<-|Hin]; [auto|].
        destruct (Hall m Hin) as (H1 & H2 & H3).
        repeat split; auto.
        unfold represented in *. rewrite existsb_app in H3.
        now apply orb_false_iff in H3.
    + destruct (IH kept) as (app' & Heq & Hall).
      exists app'. split; [exact Heq|].
      intros m Hin. destruct (Hall m Hin) as (H1 & H2 & H3). auto.
Qed.

Lemma find_none_kept (e : CMode) (incoming : list CMode) :
  (forall m, In m incoming -> name m = name e -> persistent_add m = false) ->
  find (replaces e) incoming = None.
Proof.
  intros H. induction incoming as [|m rest IH]; simpl; [reflexivity|].
  unfold replaces at 1.
  destruct (Ascii.eqb (name e) (name m)) eqn:E.
  - apply Ascii.eqb_eq in E. rewrite (H m (or_introl eq_refl) (eq_sym E)).
    simpl. apply IH. intros m' Hin. apply H. now right.
  - rewrite andb_false_r. apply IH. intros m' Hin. apply H. now right.
Qed.

Lemma merge_kept_nth (existing incoming : list CMode) (j : nat) (e : CMode) :
  nth_error existing j = Some e ->
  nth_error (merge_kept existing incoming) j
  = Some (match find (replaces e) incoming with
          | Some m => m
          | None => e
          end).
Proof.
  intros H. unfold merge_kept. rewrite nth_error_map, H. reflexivity.
Qed.

Lemma merge_kept_length (existing incoming : list CMode) :
  length (merge_kept existing incoming) = length existing.
Proof. unfold merge_kept. apply length_map. Qed.

Lemma find_replaces_name (e m : CMode) (incoming : list CMode) :
  find (replaces e) incoming = Some m ->
  In m incoming /\ persistent_add m = true /\ name m = name e.
Proof.
  intros H. apply find_some in H. destruct H as [Hin Hr].
  unfold replaces in Hr. apply andb_true_iff in Hr. destruct Hr as [Hp Hn].
  apply Ascii.eqb_eq in Hn. auto.
Qed.

(** The first loop keeps the mode characters, in order. *)
Lemma merge_kept_names (existing incoming : list CMode) :
  names (merge_kept existing incoming) = names existing.
Proof.
  unfold names, merge_kept. rewrite map_map. apply map_ext_in.
  intros e _. destruct (find (replaces e) incoming) eqn:E; [|reflexivity].
  now apply find_replaces_name in E.
Qed.

Lemma represented_In (x : ascii) (l : list CMode) :
  represented x l = true <-> In x (names l).
Proof.
  unfold represented, names. rewrite existsb_exists, in_map_iff. split.
  - intros (e & Hin & He). apply Ascii.eqb_eq in He. eauto.
  - intros (e & He & Hin). exists e. split; [exact Hin|].
    now apply Ascii.eqb_eq.
Qed.

Lemma represented_false_In (x : ascii) (l : list CMode) :
  represented x l = false <-> ~ In x (names l).
Proof.
  rewrite <- represented_In. destruct (represented x l); split; congruence.
Qed.

Lemma find_app {A} (p : A -> bool) (l1 l2 : list A) :
  find p (l1 ++ l2)
  = match find p l1 with Some x => Some x | None => find p l2 end.
Proof.
  induction l1 as [|a l1 IH]; simpl; [reflexivity|].
  destruct (p a); auto.
Qed.

Lemma represented_app (x : ascii) (l1 l2 : list CMode) :
  represented x (l1 ++ l2) = represented x l1 || represented x l2.
Proof. apply existsb_app. Qed.

Lemma replaces_self (m : CMode) :
  persistent_add m = true -> replaces m m = true.
Proof.
  intros H. unfold replaces. rewrite H. simpl. apply Ascii.eqb_refl.
Qed.

(** The entries the second loop appends are each the first persistent
    add of their character in the incoming list, and afterwards every
    persistent add of the incoming list is represented. *)
Lemma merge_appended_first (rest pre acc : list CMode) :
  (forall m, In m pre -> persistent_add m = true ->
             represented (name m) acc = true) ->
  exists appended,
    merge_appended rest acc = acc ++ appended
    /\ (forall a, In a appended -> find (replaces a) (pre ++ rest) = Some a)
    /\ (forall m, In m (pre ++ rest) -> persistent_add m = true ->
                  represented (name m) (acc ++ appended) = true).
Proof.
  revert pre acc.
  induction rest as [|mi rest IH]; intros pre acc Hpre.
  - exists []. rewrite !app_nil_r. repeat split; auto. intros a [].
  - unfold merge_appended in *. simpl.
    destruct (persistent_add mi) eqn:Hp;
      [destruct (represented (name mi) acc) eqn:Hr|]; simpl.
    + destruct (IH (pre ++ [mi]) acc) as (app' & Heq & Hfirst & Hall).
      { intros m Hin Hm. apply in_app_or in Hin.
        destruct Hin as [Hin|[<-|[]]]; auto. }
      exists app'. rewrite <- app_assoc in Hfirst, Hall. auto.
    + destruct (IH (pre ++ [mi]) (acc ++ [mi])) as (app' & Heq & Hfirst & Hall).
      { intros m Hin Hm. rewrite represented_app.
        apply in_app_or in Hin. destruct Hin as [Hin|[<-|[]]].
        - rewrite (Hpre m Hin Hm). reflexivity.
        - simpl. rewrite Ascii.eqb_refl. simpl. apply orb_true_r. }
      exists (mi :: app').
      rewrite <- !app_assoc in *. simpl in *.
      repeat split; auto.
      intros a [<-|Hin]; [|auto].
      rewrite find_app.
      assert (Hnone : find (replaces mi) pre = None).
      { apply find_none_kept. intros m Hin Hname.
        destruct (persistent_add m) eqn:Hm; [|reflexivity].
        rewrite <- Hname, (Hpre m Hin Hm) in Hr. discriminate. }
      rewrite Hnone. simpl. rewrite (replaces_self mi Hp). reflexivity.
    + destruct (IH (pre ++ [mi]) acc) as (app' & Heq & Hfirst & Hall).
      { intros m Hin Hm. apply in_app_or in Hin.
        destruct Hin as [Hin|[<-|[]]]; auto. congruence. }
      exists app'. rewrite <- app_assoc in Hfirst, Hall. auto.
Qed.

(** Nothing is appended when every persistent add is represented. *)
Lemma merge_appended_none (incoming acc : list CMode) :
  (forall m, In m incoming -> persistent_add m = true ->
             represented (name m) acc = true) ->
  merge_appended incoming acc = acc.
Proof.
  induction incoming as [|mi rest IH]; intros H; [reflexivity|].
  unfold merge_appended in *. simpl.
  destruct (persistent_add mi) eqn:Hp; simpl.
  - rewrite (H mi (or_introl eq_refl) Hp). simpl.
    apply IH. intros m Hin. apply H. now right.
  - apply IH. intros m Hin. apply H. now right.
Qed.

Lemma replaces_name (e e' m : CMode) :
  name e = name e' -> replaces e m = replaces e' m.
Proof. unfold replaces. now intros ->. Qed.

Lemma find_ext_in {A} (p q : A -> bool) (l : list A) :
  (forall x, In x l -> p x = q x) -> find p l = find q l.
Proof.
  induction l as [|a l IH]; intros H; simpl; [reflexivity|].
  rewrite <- (H a (or_introl eq_refl)). destruct (p a); [reflexivity|].
  apply IH. intros x Hin. apply H. now right.
Qed.

(** A kept or replaced entry is stable under the first loop. *)
Lemma merge_kept_fixed (existing incoming : list CMode) (r : CMode) :
  In r (merge_kept existing incoming) ->
  match find (replaces r) incoming with Some m => m | None => r end = r.
Proof.
  unfold merge_kept. rewrite in_map_iff. intros (e & He & _).
  destruct (find (replaces e) incoming) as [m|] eqn:E; subst r.
  - destruct (find_replaces_name _ _ _ E) as (_ & _ & Hn).
    rewrite (find_ext_in (replaces m) (replaces e)), E; [reflexivity|].
    intros x _. now apply replaces_name.
  - now rewrite E.
Qed.

(** Merging a list a second time changes nothing. *)
Lemma merge_spec_idempotent (existing incoming : list CMode) :
  merge_spec (merge_spec existing incoming) incoming
  = merge_spec existing incoming.
Proof.
  unfold merge_spec at 2 3.
  destruct (merge_appended_first incoming [] (merge_kept existing incoming))
    as (appended & Heq & Hfirst & Hall); [intros m []|].
  simpl in Hfirst, Hall. rewrite Heq.
  unfold merge_spec.
  assert (Hk : merge_kept (merge_kept existing incoming ++ appended) incoming
               = merge_kept existing incoming ++ appended).
  { unfold merge_kept at 1. rewrite <- map_id. apply map_ext_in.
    intros r Hin. apply in_app_or in Hin. destruct Hin as [Hin|Hin].
    - now apply merge_kept_fixed with (existing := existing).
    - now rewrite (Hfirst r Hin). }
  rewrite Hk. now apply merge_appended_none.
Qed.

Lemma NoDup_snoc {A} (l : list A) (x : A) :
  NoDup l -> ~ In x l -> NoDup (l ++ [x]).
Proof.
  intros Hl Hx. apply NoDup_app; auto.
  - constructor; [intros []|constructor].
  - intros y Hy [<-|[]]. contradiction.
Qed.

Lemma merge_appended_NoDup (incoming acc : list CMode) :
  NoDup (names acc) -> NoDup (names (merge_appended incoming acc)).
Proof.
  revert acc. induction incoming as [|mi rest IH]; intros acc H; [exact H|].
  unfold merge_appended in *. simpl.
  destruct (persistent_add mi && negb (represented (name mi) acc)) eqn:E;
    [|now apply IH].
  apply IH. apply andb_true_iff in E. destruct E as [_ E].
  apply negb_true_iff, represented_false_In in E.
  unfold names in *. rewrite map_app. simpl. now apply NoDup_snoc.
Qed.

(** [apply] keeps the stored mode characters distinct. *)
Lemma apply_modes_NoDup (stored incoming : list CMode) :
  NoDup (names stored) -> NoDup (names (apply_modes stored incoming)).
Proof.
  intros H. rewrite apply_modes_merge. unfold merge_spec.
  apply merge_appended_NoDup. now rewrite merge_kept_names.
Qed.

(** [apply] leaves the stored characters as they are when every incoming
    persistent add names a stored character. *)
Lemma apply_modes_names_stable (stored incoming : list CMode) :
  (forall m, In m incoming -> persistent_add m = true ->
             In (name m) (names stored)) ->
  names (apply_modes stored incoming) = names stored.
Proof.
  intros H. rewrite apply_modes_merge. unfold merge_spec.
  rewrite merge_appended_none; [apply merge_kept_names|].
  intros m Hin Hm. apply represented_In. rewrite merge_kept_names. auto.
Qed.

(** *** [parse] *)

Lemma skipn_nth_cons {A} (k : nat) (l : list A) (d : A) :
  (k < length l)%nat -> skipn k l = nth k l d :: skipn (S k) l.
Proof.
  revert l. induction k as [|k IH]; intros [|a l] H; simpl in *;
    try lia; [reflexivity|].
  apply IH. lia.
Qed.

Lemma parse_loop_attach (c : CModes) (flags : list ascii)
    (args_ : list string) (pol : bool) (k : nat) (out : list CMode) :
  parse_loop c flags args_ pol k out
  = out ++ attach c (polarities flags pol) (skipn k args_).
Proof.
  revert pol k out.
  induction flags as [|f rest IH]; intros pol k out; simpl.
  - now rewrite app_nil_r.
  - destruct (Ascii.eqb f "+"); [apply IH|].
    destruct (Ascii.eqb f "-"); [apply IH|].
    simpl. destruct (CModes_hasArg c pol f) as [hasArgs isSetting].
    destruct hasArgs; simpl.
    + destruct (k + 1 <=? length args_)%nat eqn:E.
      * apply Nat.leb_le in E.
        rewrite IH, <- app_assoc.
        rewrite (skipn_nth_cons k args_ ""%string) by lia. reflexivity.
      * apply Nat.leb_gt in E.
        rewrite IH, <- app_assoc.
        rewrite (skipn_all2 args_) by lia. reflexivity.
    + rewrite IH, <- app_assoc.
      destruct (skipn k args_); reflexivity.
Qed.

Lemma parse_is_spec (c : CModes) (flags : string) (args_ : list string) :
  CModes_parse c flags args_ = parseFlags_spec c flags args_.
Proof.
  unfold CModes_parse, parseFlags_spec. now rewrite parse_loop_attach.
Qed.

Lemma attach_polarities (c : CModes) (ms : list (bool * ascii))
    (unused : list string) :
  map (fun m => (add m, name m)) (attach c ms unused) = ms.
Proof.
  revert unused. induction ms as [|[pol ch] rest IH]; intros unused;
    simpl; [reflexivity|].
  destruct (CModes_hasArg c pol ch) as [[|] isSetting];
    [destruct unused|]; simpl; now rewrite IH.
Qed.

Lemma polarities_names (flags : list ascii) (pol : bool) :
  map snd (polarities flags pol) = filter (fun f => negb (is_sign f)) flags.
Proof.
  revert pol. induction flags as [|f rest IH]; intros pol; simpl;
    [reflexivity|].
  unfold is_sign.
  destruct (Ascii.eqb f "+"); simpl; [apply IH|].
  destruct (Ascii.eqb f "-"); simpl; [apply IH|].
  now rewrite IH.
Qed.

(** One mode change for each character that is not a sign. *)
Lemma parse_names (c : CModes) (flags : string) (args_ : list string) :
  names (CModes_parse c flags args_)
  = filter (fun f => negb (is_sign f)) (bytes flags).
Proof.
  rewrite parse_is_spec. unfold parseFlags_spec, names.
  rewrite <- (polarities_names (bytes flags) true).
  rewrite <- (attach_polarities c (polarities (bytes flags) true) args_)
    at 2.
  rewrite map_map. reflexivity.
Qed.

(** The setting flag is what [hasArg] answers. *)
Lemma attach_setting (c : CModes) (ms : list (bool * ascii))
    (unused : list string) (m : CMode) :
  In m (attach c ms unused) ->
  setting m = snd (CModes_hasArg c (add m) (name m)).
Proof.
  revert unused. induction ms as [|[pol ch] rest IH]; intros unused;
    simpl; [intros []|].
  destruct (CModes_hasArg c pol ch) as [[|] isSetting] eqn:E;
    [destruct unused|]; simpl; intros [<-|Hin]; simpl;
    try (now rewrite E); eauto.
Qed.

(** Arguments by position: the modes that take an argument carry, in
    order, the arguments of the list from its start, and the empty string
    once the list is used up; the other modes carry none. *)
Lemma wants_arg_mk (c : CModes) (pol : bool) (ch : ascii) (s : bool)
    (a : string) :
  wants_arg c (mkCMode pol ch s a) = fst (CModes_hasArg c pol ch).
Proof. reflexivity. Qed.

Lemma attach_positional (c : CModes) (ms : list (bool * ascii))
    (unused : list string) :
  let out := attach c ms unused in
  let takers := filter (wants_arg c) out in
  map args takers
  = firstn (length takers) unused
    ++ repeat ""%string (length takers - length unused)
  /\ forall m, In m out -> wants_arg c m = false -> args m = ""%string.
Proof.
  revert unused. induction ms as [|[pol ch] rest IH]; intros unused; simpl.
  - split; [reflexivity | intros m []].
  - destruct (CModes_hasArg c pol ch) as [hasArgs isSetting] eqn:E.
    destruct hasArgs.
    + destruct unused as [|a unused'].
      * simpl. rewrite wants_arg_mk, E. simpl.
        destruct (IH []) as [IH1 IH2]. simpl in IH1.
        rewrite firstn_nil in IH1. simpl in IH1. rewrite Nat.sub_0_r in IH1.
        split; [now rewrite IH1|].
        intros m [<-|Hin] Hm; [reflexivity | now apply IH2].
      * simpl. rewrite wants_arg_mk, E. simpl.
        destruct (IH unused') as [IH1 IH2].
        split; [now rewrite IH1|].
        intros m [<-|Hin] Hm; [|now apply IH2].
        rewrite wants_arg_mk, E in Hm. discriminate.
    + simpl.
      rewrite wants_arg_mk, E. simpl.
      destruct (IH unused) as [IH1 IH2].
      split; [exact IH1|].
      intros m [<-|Hin] Hm; [reflexivity | now apply IH2].
Qed.

(** *** Strings *)

Lemma bytes_app (a b : string) : bytes (a ++ b) = bytes a ++ bytes b.
Proof. induction a as [|x a IH]; simpl; [reflexivity | now rewrite IH]. Qed.

Lemma bytes_inj (a b : string) : bytes a = bytes b -> a = b.
Proof.
  revert b. induction a as [|x a IH]; intros [|y b] H; simpl in H;
    try discriminate; [reflexivity|].
  injection H as -> H. now rewrite (IH b H).
Qed.

Lemma length_bytes (s : string) : String.length s = length (bytes s).
Proof. induction s as [|x s IH]; simpl; [reflexivity | now rewrite IH]. Qed.

Lemma append_nil_r (s : string) : (s ++ "")%string = s.
Proof. apply bytes_inj. rewrite bytes_app. simpl. apply app_nil_r. Qed.

Lemma IndexByte_from_range (s : string) (c : ascii) (i : Z) :
  0 <= i ->
  (IndexByte_from i s c >? -1) = memb c s.
Proof.
  revert i. unfold memb.
  induction s as [|b s IH]; intros i Hi; simpl; [reflexivity|].
  rewrite (Ascii.eqb_sym c b).
  destruct (Ascii.eqb b c); simpl.
  - apply Z.gtb_lt. lia.
  - apply IH. lia.
Qed.

(** [strings.IndexByte(s, c) > -1] says that [c] occurs in [s]. *)
Lemma IndexByte_memb (s : string) (c : ascii) :
  (IndexByte s c >? -1) = memb c s.
Proof. apply IndexByte_from_range. lia. Qed.

Lemma cut_app (a rest : string) (sep : ascii) :
  memb sep a = false -> cut (a ++ String sep rest) sep = Some (a, rest).
Proof.
  unfold memb. induction a as [|x a IH]; simpl; intros H.
  - now rewrite Ascii.eqb_refl.
  - apply orb_false_iff in H. destruct H as [Hx Ha].
    rewrite Ascii.eqb_sym, Hx, (IH Ha). reflexivity.
Qed.

(** *** [newCModes] and [hasArg] *)

Lemma newCModes_buckets (A B C D userPrefixes : string) :
  comma_free A = true -> comma_free B = true -> comma_free C = true ->
  newCModes (classification A B C D) userPrefixes
  = mkCModes (classification A B C D) A B C D userPrefixes [].
Proof.
  unfold comma_free. intros HA HB HC.
  apply negb_true_iff in HA, HB, HC.
  unfold newCModes, classification. simpl.
  rewrite (cut_app A _ _ HA).
  rewrite (cut_app B _ _ HB), (cut_app C _ _ HC). reflexivity.
Qed.

Lemma classification_nonempty (A B C D : string) :
  (len (classification A B C D) <? 1) = false.
Proof.
  apply Z.ltb_ge. unfold len, classification.
  rewrite length_bytes, bytes_app. simpl. rewrite length_app. simpl. lia.
Qed.

Lemma disjointb_spec (a b : string) (x : ascii) :
  disjointb a b = true -> memb x a = true -> memb x b = false.
Proof.
  unfold disjointb. rewrite forallb_forall. intros H Hx.
  unfold memb in Hx. apply existsb_exists in Hx.
  destruct Hx as (y & Hin & Hy). apply Ascii.eqb_eq in Hy. subst y.
  now apply negb_true_iff, H.
Qed.

Lemma disjointb_spec_r (a b : string) (x : ascii) :
  disjointb a b = true -> memb x b = true -> memb x a = false.
Proof.
  intros H Hx. destruct (memb x a) eqn:E; [|reflexivity].
  rewrite (disjointb_spec a b x H E) in Hx. discriminate.
Qed.

(** *** [String] and the line read back *)

Lemma of_byte_ascii (b : ascii) :
  (byte_val b <? 128) = true -> of_byte b = String b EmptyString.
Proof. unfold of_byte. now intros ->. Qed.

Lemma String_loop_out (ms : list CMode) (out a : string) :
  ascii_names ms = true ->
  bytes (fst (String_loop ms out a)) = bytes out ++ names ms.
Proof.
  revert out a. induction ms as [|m ms IH]; intros out a H; simpl.
  - now rewrite app_nil_r.
  - simpl in H. apply andb_true_iff in H. destruct H as [Hm Hms].
    rewrite IH by exact Hms. rewrite bytes_app, (of_byte_ascii _ Hm).
    simpl. now rewrite <- app_assoc.
Qed.

Lemma String_loop_args (ms : list CMode) (out a : string) :
  spaced a -> spaced (snd (String_loop ms out a)).
Proof.
  revert out a. induction ms as [|m ms IH]; intros out a H; simpl;
    [exact H|].
  apply IH. destruct (0 <? len (args m)); [|exact H].
  destruct H as [->|(x & ->)]; right; simpl; eauto.
Qed.

Lemma tokens_nonempty (s : string) : tokens s <> [].
Proof.
  induction s as [|b s IH]; simpl; [discriminate|].
  destruct (Ascii.eqb b " "); [discriminate|].
  destruct (tokens s); discriminate.
Qed.

Lemma tokens_app_space (a b : string) :
  tokens (a ++ String " " b) = tokens a ++ tokens b.
Proof.
  induction a as [|x a IH]; simpl; [reflexivity|].
  destruct (Ascii.eqb x " "); [now rewrite IH|].
  rewrite IH. pose proof (tokens_nonempty a) as Hne.
  destruct (tokens a); [contradiction | reflexivity].
Qed.

Lemma tokens_bytes (s t : string) (ch : ascii) :
  In t (tokens s) -> In ch (bytes t) -> In ch (bytes s).
Proof.
  revert t. induction s as [|b s IH]; intros t; simpl.
  - intros [<-|[]] [].
  - destruct (Ascii.eqb b " ").
    + intros [<-|Hin]; [intros [] | right; eauto].
    + pose proof (tokens_nonempty s) as Hne.
      destruct (tokens s) as [|t0 ts]; [contradiction|].
      intros [<-|Hin]; simpl.
      * intros [->|Hch]; [now left | right].
        apply (IH t0); [now left | exact Hch].
      * right. apply (IH t); [now right | assumption].
Qed.

Lemma line_flags_bytes (s : string) (ch : ascii) :
  In ch (bytes (line_flags s)) -> In ch (bytes s).
Proof.
  unfold line_flags, fields.
  destruct (filter _ (tokens s)) as [|t ts] eqn:E; simpl; [intros []|].
  assert (Hin : In t (tokens s)).
  { eapply proj1. apply filter_In. rewrite E. now left. }
  now apply tokens_bytes.
Qed.

(** The flag string of a line is read from the part before the first
    space that follows a sign. *)
Lemma line_flags_app (r a : string) :
  spaced a -> line_flags (String "+" r ++ a) = line_flags (String "+" r).
Proof.
  intros [->|(x & ->)]; [now rewrite append_nil_r|].
  unfold line_flags, fields. rewrite tokens_app_space, filter_app.
  simpl. pose proof (tokens_nonempty r) as Hne.
  destruct (tokens r) as [|t ts]; [contradiction|]. reflexivity.
Qed.

Lemma String_parts_flags (c : CModes) (ch : ascii) :
  ascii_names (modes c) = true ->
  In ch (bytes (line_flags (CModes_String c))) ->
  ch = "+"%char \/ In ch (names (modes c)).
Proof.
  intros Hascii. unfold CModes_String, String_parts.
  destruct (modes c) as [|m ms] eqn:Em; [simpl; intros []|].
  change (0 <? Z.of_nat (length (m :: ms))) with true.
  pose proof (String_loop_out (m :: ms) "+" "" Hascii) as Hout.
  assert (Hsp : spaced (snd (String_loop (m :: ms) "+" "")))
    by (apply String_loop_args; now left).
  destruct (String_loop (m :: ms) "+" "") as [out a]. simpl in Hout, Hsp.
  destruct out as [|b out]; [discriminate|].
  injection Hout as -> Hout.
  rewrite (line_flags_app out a Hsp). intros Hin.
  apply line_flags_bytes in Hin. simpl in Hin. rewrite Hout in Hin.
  destruct Hin as [<-|Hin]; [now left | right; exact Hin].
Qed.

(** With ASCII mode characters, reading the rendered set back and
    merging it leaves the stored characters as they are, in order. *)
Lemma roundtrip_names (c : CModes) :
  ascii_names (modes c) = true ->
  names (modes (roundtrip c)) = names (modes c).
Proof.
  intros Hascii. unfold roundtrip. simpl.
  apply apply_modes_names_stable. intros m Hin _.
  assert (Hn : In (name m) (names (CModes_parse c
                 (line_flags (CModes_String c))
                 (line_args (CModes_String c)))))
    by (unfold names; now apply in_map).
  rewrite parse_names in Hn. apply filter_In in Hn.
  destruct Hn as [Hb Hs].
  destruct (String_parts_flags c (name m) Hascii Hb) as [E|H]; [|exact H].
  rewrite E in Hs. discriminate.
Qed.

Lemma HasMode_loop_In (ms : list CMode) (mode : string) :
  HasMode_loop ms mode = true
  <-> exists x, In x (names ms) /\ of_byte x = mode.
Proof.
  induction ms as [|m ms IH]; simpl.
  - split; [discriminate | intros (x & [] & _)].
  - destruct (String.eqb (of_byte (name m)) mode) eqn:E.
    + apply String.eqb_eq in E. split; [eauto | reflexivity].
    + apply String.eqb_neq in E. rewrite IH. split.
      * intros (x & Hin & Hx). eauto.
      * intros (x & [<-|Hin] & Hx); [contradiction | eauto].
Qed.
End ModeFacts.

Module ModeClaims.
Import GoString Modes ModeSpec ModeFacts.

Lemma hasArg_prefix_only (c : CModes) (set : bool) (x : ascii) :
  prefix_only c x = true -> CModes_hasArg c set x = (true, false).
Proof.
  unfold prefix_only, CModes_hasArg. rewrite !IndexByte_memb.
  intros H.
  apply andb_true_iff in H. destruct H as [H H5].
  apply andb_true_iff in H. destruct H as [H H4].
  apply andb_true_iff in H. destruct H as [H H3].
  apply andb_true_iff in H. destruct H as [H1 H2].
  apply negb_true_iff in H1, H2, H3, H4.
  now rewrite H1, H2, H3, H4, H5.
Qed.

(** C1.  [apply] produces the new mode list as the specification words
    [merge]: it equals [merge_spec]; position by position a stored entry
    is kept unless the first incoming change that is persistent and
    polarity-add with the same character replaces it; what follows the
    stored positions are incoming persistent adds whose character was not
    stored, and every incoming persistent add ends up represented; every
    entry of the result is a stored entry or an incoming persistent add,
    so no transient or removing change is written; and a stored entry
    whose incoming namesakes are all removals stays where it is. *)
Theorem apply_merges_as_specified (c : CModes) (incoming : list CMode) :
  let new := modes (CModes_apply c incoming) in
  new = merge_spec (modes c) incoming
  /\ (forall j e, nth_error (modes c) j = Some e ->
        nth_error new j
        = Some (match find (replaces e) incoming with
                | Some m => m
                | None => e
                end))
  /\ (exists appended,
        new = merge_kept (modes c) incoming ++ appended
        /\ forall m, In m appended ->
             In m incoming /\ setting m = true /\ add m = true
             /\ ~ In (name m) (names (modes c)))
  /\ (forall m, In m incoming -> setting m = true -> add m = true ->
        In (name m) (names new))
  /\ (forall m, In m new ->
        In m (modes c)
        \/ (In m incoming /\ setting m = true /\ add m = true))
  /\ (forall j e, nth_error (modes c) j = Some e ->
        (forall m, In m incoming -> name m = name e -> add m = false) ->
        nth_error new j = Some e).
Proof.
  simpl. rewrite apply_modes_merge. unfold merge_spec.
  destruct (merge_appended_first incoming [] (merge_kept (modes c) incoming))
    as (appended & Heq & _ & Hall); [intros m []|].
  destruct (merge_appended_shape incoming (merge_kept (modes c) incoming))
    as (appended' & Heq' & Hshape).
  assert (appended' = appended)
    by (rewrite Heq in Heq'; now apply app_inv_head in Heq').
  subst appended'. clear Heq'. simpl in Hall.
  assert (Hkept : forall j e, nth_error (modes c) j = Some e ->
            nth_error (merge_kept (modes c) incoming ++ appended) j
            = Some (match find (replaces e) incoming with
                    | Some m => m
                    | None => e
                    end)).
  { intros j e Hj. rewrite nth_error_app1.
    - now apply merge_kept_nth.
    - rewrite merge_kept_length. apply nth_error_Some. congruence. }
  rewrite Heq. split; [reflexivity|]. split; [exact Hkept|].
  split; [|split; [|split]].
  - exists appended. split; [reflexivity|].
    intros m Hin. destruct (Hshape m Hin) as (H1 & H2 & H3).
    apply andb_true_iff in H2. destruct H2 as [H2 H2'].
    apply represented_false_In in H3. rewrite merge_kept_names in H3. auto.
  - intros m Hin Hs Ha. apply represented_In, Hall; [exact Hin|].
    unfold persistent_add. now rewrite Hs, Ha.
  - intros m Hin. apply in_app_or in Hin. destruct Hin as [Hin|Hin].
    + unfold merge_kept in Hin. apply in_map_iff in Hin.
      destruct Hin as (e & He & Hin).
      destruct (find (replaces e) incoming) as [m'|] eqn:E; subst m.
      * destruct (find_replaces_name _ _ _ E) as (H1 & H2 & _).
        apply andb_true_iff in H2. right. tauto.
      * now left.
    + destruct (Hshape m Hin) as (H1 & H2 & _).
      apply andb_true_iff in H2. right. tauto.
  - intros j e Hj Hrem. rewrite (Hkept j e Hj).
    rewrite find_none_kept; [reflexivity|].
    intros m Hin Hn. unfold persistent_add.
    rewrite (Hrem m Hin Hn). apply andb_false_r.
Qed.

Lemma apply_merges_as_specified_witness :
  let c := mkCModes "b,k,l,imnpst" "b" "k" "l" "imnpst" "(ov)@+"
             [mkCMode true "m" true ""; mkCMode true "k" true "secret"] in
  nth_error (modes (CModes_apply c [mkCMode false "k" true ""])) 1
  = Some (mkCMode true "k" true "secret").
Proof.
  intros c.
  apply (proj2 (proj2 (proj2 (proj2 (proj2
           (apply_merges_as_specified c [mkCMode false "k" true ""])))))).
  - reflexivity.
  - intros m [<-|[]] _. reflexivity.
Defined.

(** C3.  [parse] scans the flag string left to right: it equals
    [parseFlags_spec]; the pairs of polarity and character of its result
    are the characters other than the signs, each with the polarity in
    force where it stands, one mode change per such character; the setting
    flag is the one [hasArg] answers; the modes that take an argument
    carry the arguments of the list in list order from its start (and the
    empty string once the list is used up), the others carry none; and
    with [o] and [v] permission-prefix characters,
    parse("+o-v", ["alice","bob"]) is +o with alice and -v with bob,
    both not persistent. *)
Theorem parse_scans_left_to_right (c : CModes) (flags : string)
    (args_ : list string) :
  let out := CModes_parse c flags args_ in
  out = parseFlags_spec c flags args_
  /\ map (fun m => (add m, name m)) out = polarities (bytes flags) true
  /\ names out = filter (fun f => negb (is_sign f)) (bytes flags)
  /\ (forall m, In m out ->
        setting m = snd (CModes_hasArg c (add m) (name m)))
  /\ (let takers := filter (wants_arg c) out in
      map args takers
      = firstn (length takers) args_
        ++ repeat ""%string (length takers - length args_))
  /\ (forall m, In m out -> wants_arg c m = false -> args m = ""%string)
  /\ (prefix_only c "o" = true -> prefix_only c "v" = true ->
      CModes_parse c "+o-v" ["alice"; "bob"]
      = [mkCMode true "o" false "alice"; mkCMode false "v" false "bob"]).
Proof.
  simpl. rewrite parse_is_spec. unfold parseFlags_spec.
  split; [reflexivity|].
  split; [apply attach_polarities|].
  split; [rewrite <- (parse_names c flags args_), parse_is_spec;
          reflexivity|].
  split; [intros m; apply attach_setting|].
  destruct (attach_positional c (polarities (bytes flags) true) args_)
    as [H1 H2].
  split; [exact H1|]. split; [exact H2|].
  intros Ho Hv. unfold CModes_parse. simpl.
  rewrite (hasArg_prefix_only c true _ Ho). simpl.
  rewrite (hasArg_prefix_only c false _ Hv). reflexivity.
Qed.

Lemma parse_scans_left_to_right_witness :
  let c := newCModes "b,k,l,imnpst" "(ov)@+" in
  CModes_parse c "+o-v" ["alice"; "bob"]
  = [mkCMode true "o" false "alice"; mkCMode false "v" false "bob"].
Proof.
  intros c.
  apply (proj2 (proj2 (proj2 (proj2 (proj2 (proj2
           (parse_scans_left_to_right c "" []))))))); reflexivity.
Defined.

(** C4 (amended).  Under a classification "A,B,C,D" with disjoint
    buckets, [hasArg] answers (true, false) for a character of A;
    (false, true) for a character of D that is not a permission-prefix
    character, and for a character of no bucket that is not a
    permission-prefix character; and (true, false) for a
    permission-prefix character of no bucket.  This holds for both
    polarities. *)
Theorem hasArg_classifies (A B C D userPrefixes : string) (mode : ascii)
    (set : bool) :
  comma_free A = true -> comma_free B = true -> comma_free C = true ->
  buckets_disjoint A B C D = true ->
  let c := newCModes (classification A B C D) userPrefixes in
  (memb mode A = true -> CModes_hasArg c set mode = (true, false))
  /\ (memb mode D = true -> memb mode userPrefixes = false ->
      CModes_hasArg c set mode = (false, true))
  /\ (memb mode A = false -> memb mode B = false ->
      memb mode C = false -> memb mode D = false ->
      memb mode userPrefixes = false ->
      CModes_hasArg c set mode = (false, true))
  /\ (memb mode userPrefixes = true ->
      memb mode A = false -> memb mode B = false ->
      memb mode C = false -> memb mode D = false ->
      CModes_hasArg c set mode = (true, false)).
Proof.
  intros HA HB HC Hdis c. subst c.
  rewrite (newCModes_buckets A B C D userPrefixes HA HB HC).
  unfold CModes_hasArg. simpl.
  rewrite classification_nonempty, !IndexByte_memb.
  unfold buckets_disjoint in Hdis.
  repeat (apply andb_true_iff in Hdis; destruct Hdis as [Hdis ?]).
  repeat split.
  - now intros ->.
  - intros HD HP.
    rewrite (disjointb_spec_r A D mode), (disjointb_spec_r B D mode),
      (disjointb_spec_r C D mode), HP; auto.
  - now intros -> -> -> _ ->.
  - now intros -> -> -> -> _.
Qed.

Lemma hasArg_classifies_witness :
  CModes_hasArg (newCModes (classification "b" "k" "l" "imnpst") "(ov)@+")
                true "b" = (true, false).
Proof.
  apply (proj1 (hasArg_classifies "b" "k" "l" "imnpst" "(ov)@+" "b" true
                  eq_refl eq_refl eq_refl eq_refl)).
  reflexivity.
Defined.

Lemma hasArg_never_arg_prefix_counterexample :
  let c := newCModes (classification "b" "k" "l" "o") "(ov)@+" in
  buckets_disjoint "b" "k" "l" "o" = true
  /\ memb "o" (modesNoArgs c) = true
  /\ CModes_hasArg c true "o" = (true, false)
  /\ CModes_hasArg c true "o" <> (false, true).
Proof. repeat split; discriminate. Qed.

(** Applying any list a second time changes nothing. *)
Lemma apply_twice (c : CModes) (incoming : list CMode) :
  CModes_apply (CModes_apply c incoming) incoming = CModes_apply c incoming.
Proof.
  unfold CModes_apply, set_modes. simpl. f_equal.
  rewrite !apply_modes_merge. apply merge_spec_idempotent.
Qed.

(** C7.  [apply] is idempotent: applying a list of persistent,
    polarity-add changes a second time gives the same mode set, the same
    entries in the same order, as applying it once. *)
Theorem apply_idempotent (c : CModes) (incoming : list CMode) :
  Forall (fun m => setting m = true /\ add m = true) incoming ->
  CModes_apply (CModes_apply c incoming) incoming = CModes_apply c incoming.
Proof. intros _. apply apply_twice. Qed.

Lemma apply_idempotent_witness :
  let c := mkCModes "b,k,l,imnpst" "b" "k" "l" "imnpst" "(ov)@+"
             [mkCMode true "m" true ""; mkCMode true "k" true "old"] in
  let incoming := [mkCMode true "k" true "new"; mkCMode true "t" true "";
                   mkCMode true "k" true "newer"] in
  CModes_apply (CModes_apply c incoming) incoming = CModes_apply c incoming.
Proof.
  intros c incoming. apply (apply_idempotent c incoming).
  repeat constructor.
Defined.

(** C9.  Every mode set reachable from [newCModes] by [apply] stores at
    most one entry per mode character. *)
Theorem reachable_no_duplicates (channelModes userPrefixes : string)
    (c : CModes) :
  reachable channelModes userPrefixes c -> NoDup (names (modes c)).
Proof.
  induction 1 as [|c incoming Hreach IH]; simpl.
  - constructor.
  - now apply apply_modes_NoDup.
Qed.

Lemma reachable_no_duplicates_witness :
  let c0 := newCModes "b,k,l,imnpst" "(ov)@+" in
  let c1 := CModes_apply c0 (CModes_parse c0 "+ntk" ["key"]) in
  let c2 := CModes_apply c1 (CModes_parse c1 "+kk-n+m" ["a"; "b"]) in
  NoDup (names (modes c2)).
Proof.
  intros c0 c1 c2.
  apply (reachable_no_duplicates "b,k,l,imnpst" "(ov)@+" c2).
  apply reach_apply, reach_apply, reach_new.
Defined.

(** C8 (amended).  For a mode set produced by [apply] whose stored mode
    characters are all ASCII (below 0x80), rendering it with [String],
    reading the flag string and the arguments back, parsing them under the
    same tables and merging the result into the set leaves the same set of
    active mode characters: the same characters are stored, and [HasMode]
    answers the same for every mode. *)
Theorem roundtrip_same_active_modes (c0 : CModes) (incoming : list CMode) :
  let c := CModes_apply c0 incoming in
  ascii_names (modes c) = true ->
  (forall x, In x (names (modes (roundtrip c))) <-> In x (names (modes c)))
  /\ (forall mode, CModes_HasMode (roundtrip c) mode = CModes_HasMode c mode).
Proof.
  intros c Hascii.
  pose proof (roundtrip_names c Hascii) as Hn.
  split; [intros x; now rewrite Hn|].
  intros mode. unfold CModes_HasMode.
  apply eq_true_iff_eq. rewrite !HasMode_loop_In, Hn. reflexivity.
Qed.

Lemma roundtrip_same_active_modes_witness :
  let c0 := newCModes "b,k,l,imnpst" "(ov)@+" in
  let c := CModes_apply c0 (CModes_parse c0 "+ntk" ["key"]) in
  (forall x, In x (names (modes (roundtrip c))) <-> In x (names (modes c)))
  /\ (forall mode, CModes_HasMode (roundtrip c) mode = CModes_HasMode c mode).
Proof.
  intros c0 c.
  apply (roundtrip_same_active_modes c0 (CModes_parse c0 "+ntk" ["key"])).
  reflexivity.
Defined.

Lemma roundtrip_non_ascii_counterexample :
  let c0 := newCModes "b,k,l,imnpst" "(ov)@+" in
  let flags := String "+" (String "233" EmptyString) in
  let c := CModes_apply c0 (CModes_parse c0 flags []) in
  names (modes c) = ["233"%char]
  /\ CModes_String c = String "+" (String "195" (String "169" EmptyString))
  /\ names (modes (roundtrip c)) = ["233"; "195"; "169"]%char
  /\ ~ (forall x, In x (names (modes (roundtrip c)))
                  <-> In x (names (modes c))).
Proof.
  intros c0 flags c.
  assert (Hc : names (modes c) = ["233"%char]) by reflexivity.
  assert (Hr : names (modes (roundtrip c)) = ["233"; "195"; "169"]%char)
    by reflexivity.
  repeat split; try reflexivity.
  intros H. specialize (H "195"%char). rewrite Hc, Hr in H.
  destruct H as [H _].
  destruct H as [H|[]]; [simpl; auto | discriminate].
Qed.
End ModeClaims.

Module ClientFacts.
Import GoString Client.

Lemma dials_snoc (t : list action) (a : action) :
  dials (t ++ [a]) = (dials t + (if is_dial a then 1 else 0))%nat.
Proof.
  unfold dials. rewrite filter_app, length_app. simpl.
  destruct (is_dial a); reflexivity.
Qed.

Lemma stops_snoc (t : list action) (a : action) :
  stops (t ++ [a]) = (stops t + (if is_stop a then 1 else 0))%nat.
Proof.
  unfold stops. rewrite filter_app, length_app. simpl.
  destruct (is_stop a); reflexivity.
Qed.

Lemma encodes_snoc (t : list action) (a : action) :
  encodes (t ++ [a]) = (encodes t + (if is_encode a then 1 else 0))%nat.
Proof.
  unfold encodes. rewrite filter_app, length_app. simpl.
  destruct (is_encode a); reflexivity.
Qed.

Section WithExternals.
Variable X : Externals.

(** [Send] writes one event and leaves the client as it is. *)
Lemma Send_frame (e : Event) (s : Sys) :
  client (snd (Send X e s)) = client s
  /\ trace (snd (Send X e s)) = trace s ++ [ActEncode e].
Proof.
  unfold Send. run. destruct (encode_ok X (encodes (trace s))); auto.
Qed.

Lemma send_all_frame (events : list Event) (s : Sys) :
  client (snd (send_all X events s)) = client s
  /\ dials (trace (snd (send_all X events s))) = dials (trace s)
  /\ stops (trace (snd (send_all X events s))) = stops (trace s).
Proof.
  revert s. induction events as [|e rest IH]; intros s; simpl; [auto|].
  unfold bind. destruct (Send X e s) as [err s1] eqn:E.
  pose proof (Send_frame e s) as [Hc Ht]. rewrite E in Hc, Ht.
  simpl in Hc, Ht.
  assert (Hd : dials (trace s1) = dials (trace s))
    by (rewrite Ht, dials_snoc; simpl; lia).
  assert (Hs : stops (trace s1) = stops (trace s))
    by (rewrite Ht, stops_snoc; simpl; lia).
  destruct err; simpl; [auto|].
  destruct (IH s1) as (H1 & H2 & H3). rewrite H1, H2, H3. auto.
Qed.

(** [Quit] opens no transport, stops nothing, and leaves the
    configuration and the retry counter as they are. *)
Lemma Quit_frame (message : string) (s : Sys) :
  let s' := snd (Quit X message s) in
  Config_ (client s') = Config_ (client s)
  /\ tries (client s') = tries (client s)
  /\ dials (trace s') = dials (trace s)
  /\ stops (trace s') = stops (trace s).
Proof.
  unfold Quit, Send. run.
  destruct (encode_ok X _); simpl;
    destruct (conn (state_ (client s))); simpl;
    rewrite ?dials_snoc, ?stops_snoc; simpl; repeat split; lia.
Qed.

(** What [Connect] leaves behind: the configuration limits stand, at
    most one transport is opened, nothing is stopped, and the retry
    counter moves only when the connection succeeds. *)
Lemma Connect_frame (s : Sys) :
  let r := fst (Connect X s) in
  let s' := snd (Connect X s) in
  MaxRetries (Config_ (client s')) = MaxRetries (Config_ (client s))
  /\ ReconnectDelay (Config_ (client s'))
     = ReconnectDelay (Config_ (client s))
  /\ (dials (trace s') <= dials (trace s) + 1)%nat
  /\ stops (trace s') = stops (trace s)
  /\ (r <> None -> tries (client s') = tries (client s)).
Proof.
  unfold Connect. run.
  destruct (String.eqb (Server (Config_ (client s))) "");
    [simpl; repeat split; lia|].
  destruct ((Port (Config_ (client s)) <? 21)
            || (Port (Config_ (client s)) >? 65535));
    [simpl; repeat split; lia|].
  destruct (negb (IsValidNick X (Nick (Config_ (client s))))
            || negb (IsValidUser X (User_ (Config_ (client s)))));
    [simpl; repeat split; lia|].
  unfold dial, connectMessages. run.
  destruct (Conn (Config_ (client s))) as [h|]; simpl.
  - destruct (String.eqb (Name (Config_ (client s))) ""); simpl;
      match goal with
      | [ |- context [send_all X ?evs ?s1] ] =>
          destruct (send_all_frame evs s1) as (Hc & Hd & Hs);
          destruct (send_all X evs s1) as [err s2]
      end;
      simpl in Hc, Hd, Hs;
      destruct err; simpl;
      rewrite ?dials_snoc, ?stops_snoc, ?Hc, ?Hd, ?Hs; simpl;
      repeat split; try lia; congruence.
  - destruct (dial_result X (dials (trace s))) as [h|]; simpl.
    + destruct (String.eqb (Name (Config_ (client s))) ""); simpl;
        match goal with
        | [ |- context [send_all X ?evs ?s1] ] =>
            destruct (send_all_frame evs s1) as (Hc & Hd & Hs);
            destruct (send_all X evs s1) as [err s2]
        end;
        simpl in Hc, Hd, Hs; rewrite dials_snoc, stops_snoc in *;
        destruct err; simpl;
        rewrite ?dials_snoc, ?stops_snoc, ?Hc, ?Hd, ?Hs; simpl;
        repeat split; try lia; congruence.
    + rewrite dials_snoc, stops_snoc. simpl. repeat split; lia.
Qed.

(** The retry loop only sleeps and counts. *)
Lemma retry_loop_frame (fuel : nat) (err : option error) (s : Sys) :
  let s' := snd (retry_loop fuel err s) in
  dials (trace s') = dials (trace s)
  /\ stops (trace s') = stops (trace s).
Proof.
  revert s. induction fuel as [|fuel IH]; intros s; simpl; run.
  - destruct (_ && _); simpl; auto.
  - destruct (_ && _); simpl; [|auto].
    match goal with
    | [ |- context [retry_loop fuel err ?s1] ] =>
        destruct (IH s1) as [H1 H2]; rewrite H1, H2
    end.
    simpl. rewrite dials_snoc, stops_snoc. simpl. lia.
Qed.

(** The distance of [tries] from [MaxRetries] is fuel enough. *)
Lemma retry_loop_enough (fuel : nat) (err : option error) (s : Sys) :
  (Z.to_nat (MaxRetries (Config_ (client s)) - tries (client s)) <= fuel)%nat
  -> fst (retry_loop fuel err s) = true.
Proof.
  revert s. induction fuel as [|fuel IH]; intros s Hfuel; simpl; run.
  - destruct err; simpl; [|reflexivity].
    destruct (tries (client s) <? MaxRetries (Config_ (client s))) eqn:E;
      [|reflexivity].
    apply Z.ltb_lt in E. lia.
  - destruct err; simpl; [|reflexivity].
    destruct (tries (client s) <? MaxRetries (Config_ (client s))) eqn:E;
      [|reflexivity].
    apply Z.ltb_lt in E. apply IH. simpl. lia.
Qed.

(** [Reconnect] opens the transport at most once, whatever
    [MaxRetries] is: only the init statement of its loop connects. *)
Lemma Reconnect_opens_at_most_once (s : Sys) :
  (dials (trace (snd (Reconnect X s))) <= dials (trace s) + 1)%nat.
Proof.
  unfold Reconnect, Reconnect_fuel, IsConnected, Stop. run.
  destruct (reconnecting (state_ (client s))); simpl; [lia|].
  destruct (hasQuit (state_ (client s))); simpl; [lia|].
  match goal with
  | [ |- context [ReconnectDelay ?c <? ?d] ] =>
      destruct (ReconnectDelay c <? d); simpl
  end.
  all: destruct (connected (state_ (client s))); simpl.
  all: try match goal with
    | [ |- context [Quit X ?m ?s1] ] =>
        pose proof (Quit_frame m s1) as (Hq1 & Hq2 & Hq3 & Hq4);
        destruct (Quit X m s1) as [[] sq]; simpl in *
    end.
  all: match goal with
    | [ |- context [MaxRetries ?c >? 0] ] =>
        destruct (MaxRetries c >? 0); simpl
    end.
  all: try (rewrite dials_snoc; simpl; lia).
  all: match goal with
    | [ |- context [Connect X ?s1] ] =>
        pose proof (Connect_frame s1) as (_ & _ & Hc & _);
        destruct (Connect X s1) as [err sc]; simpl in *
    end.
  all: match goal with
    | [ |- context [retry_loop ?f ?e ?s1] ] =>
        pose proof (retry_loop_frame f e s1) as (Hr & _);
        destruct (retry_loop f e s1) as [[|] sr]; simpl in *
    end.
  all: try destruct err; simpl.
  all: rewrite ?dials_snoc in *; simpl in *; lia.
Qed.

Lemma retry_loop_no_error (fuel : nat) (s : Sys) :
  fst (retry_loop fuel None s) = true.
Proof. destruct fuel; reflexivity. Qed.

(** [Reconnect] returns: its retry loop ends within the fuel. *)
Lemma Reconnect_total (s : Sys) : fst (Reconnect X s) <> None.
Proof.
  unfold Reconnect, Reconnect_fuel, IsConnected, Stop. run.
  destruct (reconnecting (state_ (client s))); simpl; [discriminate|].
  destruct (hasQuit (state_ (client s))); simpl; [discriminate|].
  match goal with
  | [ |- context [ReconnectDelay ?c <? ?d] ] =>
      destruct (ReconnectDelay c <? d); simpl
  end.
  all: destruct (connected (state_ (client s))); simpl.
  all: try match goal with
    | [ |- context [Quit X ?m ?s1] ] =>
        pose proof (Quit_frame m s1) as (Hq1 & Hq2 & _);
        destruct (Quit X m s1) as [[] sq]; simpl in *
    end.
  all: match goal with
    | [ |- context [MaxRetries ?c >? 0] ] =>
        destruct (MaxRetries c >? 0); simpl
    end.
  all: try discriminate.
  all: match goal with
    | [ |- context [Connect X ?s1] ] =>
        pose proof (Connect_frame s1) as (Hm & _ & _ & _ & Ht);
        destruct (Connect X s1) as [err sc]; simpl in *
    end.
  all: match goal with
    | [ |- context [retry_loop ?f ?e ?s1] ] =>
        pose proof (retry_loop_enough f e s1) as Hen;
        pose proof (retry_loop_no_error f s1) as Hno;
        destruct e as [e0|];
        [ assert (Hfin : fst (retry_loop f (Some e0) s1) = true)
            by (apply Hen; rewrite Hm, Ht by discriminate;
                rewrite ?Hq1, ?Hq2; simpl; lia);
          destruct (retry_loop f (Some e0) s1) as [fin sr]
        | destruct (retry_loop f None s1) as [fin sr] ];
        simpl in *; subst fin; simpl
    end.
  all: discriminate.
Qed.
End WithExternals.
End ClientFacts.

Module ClientClaims.
Import GoString Client Sample ClientFacts.

(** C2.  The code at the failing input: a connected client with
    [MaxRetries] 2 whose read fails, on a transport where every open
    attempt fails.  [Reconnect] runs once, opens the transport once (in
    the init statement of its loop), sleeps through two iterations that
    do not connect, and stops the client: one connection attempt, where
    the specification counts three. *)
Theorem Reconnect_failing_transport_single_attempt :
  let r := readLoop_read_error failing_transport connected_client in
  MaxRetries (Config_ (client connected_client)) = 2
  /\ fst r = Some (Some (ErrTransport 0))
  /\ trace (snd r)
     = [ActEncode (mkEvent "QUIT" [] "reconnecting..." false); ActClose;
        ActSleep (10 * Second);
        ActDial false "irc.example.org" 6667;
        ActSleep (10 * Second); ActSleep (10 * Second);
        ActStop]
  /\ dials (trace (snd r)) = 1%nat
  /\ sleeps (trace (snd r)) = 3%nat
  /\ stops (trace (snd r)) = 1%nat
  /\ tries (client (snd r)) = 2.
Proof. vm_compute. repeat split; reflexivity. Qed.

Lemma Reconnect0_failing_transport_single_attempt :
  exists c',
    Client0.Reconnect failing_transport connected_client0
    = Some (Some (ErrTransport 0), c')
    /\ dials (Client0.trace c') = 1%nat
    /\ Client0.tries c' = 2.
Proof. eexists. vm_compute. repeat split; reflexivity. Qed.


(** The earlier revision refuses an empty server, nickname or username
    and the port 0, before it opens a transport. *)
Lemma Connect0_fails_fast (X : Externals) (c : Client0.Client) :
  Client0.Server (Client0.Config_ c) = ""%string
  \/ Client0.Port (Client0.Config_ c) = 0
  \/ Client0.Nick (Client0.Config_ c) = ""%string
  \/ Client0.User_ (Client0.Config_ c) = ""%string ->
  Client0.Connect X c
  = (Some (errorsNew "invalid configuration (server/port/nick/user)"), c).
Proof.
  intros H. unfold Client0.Connect.
  destruct H as [H|[H|[H|H]]]; rewrite H; simpl;
    rewrite ?orb_true_r; reflexivity.
Qed.


(** C10 (amended).  When tracking is not disabled, [GetNick] returns the
    session nickname if it is not empty and [Config.Nick] otherwise; in
    particular on a fresh session state it returns [Config.Nick]. *)
Theorem GetNick_falls_back (c : Client) :
  DisableTracking (Config_ c) = false ->
  (nick (state_ c) <> ""%string -> GetNick c = Some (nick (state_ c)))
  /\ (nick (state_ c) = ""%string -> GetNick c = Some (Nick (Config_ c)))
  /\ (state_ c = newState -> GetNick c = Some (Nick (Config_ c))).
Proof.
  intros Ht. unfold GetNick. rewrite Ht. repeat split.
  - intros H. apply String.eqb_neq in H. now rewrite H.
  - now intros ->.
  - now intros ->.
Qed.

Lemma GetNick_falls_back_witness :
  GetNick (client connected_client) = Some "girc"%string.
Proof.
  apply (proj1 (proj2 (GetNick_falls_back (client connected_client)
                         eq_refl))).
  reflexivity.
Defined.

Lemma GetNick_tracking_disabled_counterexample :
  let c := mkClient
             (mkConfig "irc.example.org" 6667 "" "girc" "girc" "" None
                       false 2 0 true false false)
             newState (mkCaller [] 0) 0 in
  nick (state_ c) = ""%string
  /\ GetNick c = None
  /\ GetNick c <> Some (Nick (Config_ c)).
Proof. repeat split. discriminate. Qed.

Lemma GetNick0_falls_back (c : Client0.Client) :
  Client0.GetNick c
  = if String.eqb (Client0.nick (Client0.State_ c)) ""
    then Client0.Nick (Client0.Config_ c)
    else Client0.nick (Client0.State_ c).
Proof. reflexivity. Qed.




End ClientClaims.


(* ================================================================== *)
(** ** Further properties of the mode engine, the permissions and the
    client *)
(* ================================================================== *)

Module ExtraModes.
Import GoString Modes ModeSpec ModeFacts Validation Channel.

(** *** Slices and searches *)

Lemma byte_is_close_paren (b : ascii) :
  (byte_val b =? 41) = Ascii.eqb ")" b.
Proof. destruct b as [[] [] [] [] [] [] [] []]; reflexivity. Qed.

Lemma take_app (a b : string) :
  take (String.length a) (a ++ b) = a.
Proof. induction a as [|x a IH]; simpl; [now destruct b | now rewrite IH]. Qed.

Lemma drop_app (a b : string) :
  drop (String.length a) (a ++ b) = b.
Proof. induction a as [|x a IH]; simpl; [reflexivity | exact IH]. Qed.

Lemma drop_app_cons (a b : string) (c : ascii) :
  drop (S (String.length a)) (a ++ String c b) = b.
Proof. induction a as [|x a IH]; simpl; [reflexivity | exact IH]. Qed.

Lemma take_drop (n : nat) (s : string) : (take n s ++ drop n s)%string = s.
Proof.
  revert s. induction n as [|n IH]; intros [|x s]; simpl; try reflexivity.
  now rewrite IH.
Qed.

Lemma IndexByte_from_app (a rest : string) (c : ascii) (i : Z) :
  memb c a = false ->
  IndexByte_from i (a ++ String c rest) c = i + Z.of_nat (String.length a).
Proof.
  revert i. unfold memb. induction a as [|x a IH]; intros i H; simpl.
  - rewrite Ascii.eqb_refl. lia.
  - simpl in H. apply orb_false_iff in H. destruct H as [Hx Ha].
    rewrite Ascii.eqb_sym, Hx, (IH _ Ha). lia.
Qed.

Lemma IndexByte_from_found (s : string) (c : ascii) (i : Z) :
  IndexByte_from i s c = -1 \/ i <= IndexByte_from i s c.
Proof.
  revert i. induction s as [|x s IH]; intros i; simpl; [now left|].
  destruct (Ascii.eqb x c); [right; lia|].
  destruct (IH (i + 1)); [now left | right; lia].
Qed.

(** Where [IndexByte] finds [c], the string splits there, and [c] does
    not occur before. *)
Lemma IndexByte_from_split (s : string) (c : ascii) (i : Z) :
  0 <= i -> i <= IndexByte_from i s c ->
  let k := Z.to_nat (IndexByte_from i s c - i) in
  s = (take k s ++ String c (drop (S k) s))%string
  /\ memb c (take k s) = false.
Proof.
  revert i. unfold memb.
  induction s as [|x s IH]; intros i Hi Hfound; simpl in *.
  - lia.
  - destruct (Ascii.eqb x c) eqn:E.
    + apply Ascii.eqb_eq in E. subst x.
      replace (i - i) with 0 by lia. simpl. auto.
    + assert (Hrec : i + 1 <= IndexByte_from (i + 1) s c)
        by (destruct (IndexByte_from_found s c (i + 1)); lia).
      destruct (IH (i + 1) ltac:(lia) Hrec) as [H1 H2].
      replace (Z.to_nat (IndexByte_from (i + 1) s c - i))
        with (S (Z.to_nat (IndexByte_from (i + 1) s c - (i + 1)))) by lia.
      simpl. rewrite <- H1. split; [reflexivity|].
      rewrite Ascii.eqb_sym, E. exact H2.
Qed.

Lemma byte_is_open_paren (b : ascii) :
  (byte_val b =? 40) = Ascii.eqb "(" b.
Proof. destruct b as [[] [] [] [] [] [] [] []]; reflexivity. Qed.

(** *** [isValidUserPrefix] and [parsePrefixes] *)

Lemma isValidUserPrefix_loop_passed (l : list ascii) (keys rep : Z) :
  isValidUserPrefix_loop l keys rep true
  = (keys,
     rep + Z.of_nat (length (filter (fun b => negb (Ascii.eqb ")" b)) l))).
Proof.
  revert rep. induction l as [|b l IH]; intros rep.
  - simpl. f_equal. lia.
  - cbn [isValidUserPrefix_loop filter]. rewrite byte_is_close_paren.
    destruct (Ascii.eqb ")" b); cbn [negb length].
    + apply IH.
    + rewrite IH. f_equal. lia.
Qed.

Lemma isValidUserPrefix_loop_keys (m : string) (l : list ascii)
    (keys rep : Z) :
  memb ")" m = false ->
  isValidUserPrefix_loop (bytes m ++ ")"%char :: l) keys rep false
  = isValidUserPrefix_loop l (keys + Z.of_nat (String.length m)) rep true.
Proof.
  revert keys. unfold memb.
  induction m as [|b m IH]; intros keys H.
  - cbn [bytes app isValidUserPrefix_loop].
    rewrite byte_is_close_paren, Ascii.eqb_refl. f_equal. simpl. lia.
  - cbn [bytes existsb] in H. apply orb_false_iff in H.
    destruct H as [Hb Hm].
    cbn [bytes app isValidUserPrefix_loop].
    rewrite byte_is_close_paren, Hb, (IH _ Hm). f_equal.
    cbn [String.length]. lia.
Qed.

Lemma filter_no_paren (p : string) :
  memb ")" p = false ->
  filter (fun b => negb (Ascii.eqb ")" b)) (bytes p) = bytes p.
Proof.
  unfold memb. induction p as [|b p IH]; [reflexivity|].
  cbn [bytes existsb filter].
  intros H. apply orb_false_iff in H. destruct H as [Hb Hp].
  rewrite Hb. cbn [negb]. now rewrite IH.
Qed.

(** X1.  For mode characters and symbols that contain no closing parenthesis and
    are equally many, the string "(modes)symbols" is accepted by
    [isValidUserPrefix] and [parsePrefixes] gives back the two parts. *)
Theorem parsePrefixes_roundtrip (modes_ symbols : string) :
  memb ")" modes_ = false ->
  memb ")" symbols = false ->
  String.length modes_ = String.length symbols ->
  let raw_ := ("(" ++ modes_ ++ ")" ++ symbols)%string in
  isValidUserPrefix raw_ = true
  /\ parsePrefixes raw_ = (modes_, symbols).
Proof.
  intros Hm Hs Hlen raw_.
  assert (Hv : isValidUserPrefix raw_ = true).
  { subst raw_. simpl. rewrite bytes_app. simpl.
    rewrite (isValidUserPrefix_loop_keys _ _ _ _ Hm).
    rewrite isValidUserPrefix_loop_passed, (filter_no_paren _ Hs).
    rewrite <- length_bytes. apply Z.eqb_eq. lia. }
  split; [exact Hv|].
  unfold parsePrefixes. rewrite Hv. simpl.
  assert (Hi : IndexByte raw_ ")" = 1 + Z.of_nat (String.length modes_)).
  { subst raw_. unfold IndexByte. simpl.
    apply (IndexByte_from_app modes_ symbols ")" 1 Hm). }
  rewrite Hi.
  destruct (1 + Z.of_nat (String.length modes_) <? 1) eqn:E;
    [apply Z.ltb_lt in E; lia|].
  unfold slice, slice_from. subst raw_.
  replace (Z.to_nat (1 + Z.of_nat (String.length modes_) - 1))
    with (String.length modes_) by lia.
  replace (Z.to_nat (1 + Z.of_nat (String.length modes_) + 1))
    with (S (S (String.length modes_))) by lia.
  replace (Z.to_nat 1) with 1%nat by lia.
  f_equal.
  - change (take (String.length modes_) (modes_ ++ String ")" symbols)
            = modes_).
    apply take_app.
  - change (drop (S (String.length modes_)) (modes_ ++ String ")" symbols)
            = symbols).
    apply drop_app_cons.
Qed.

Lemma parsePrefixes_roundtrip_witness :
  isValidUserPrefix "(qaohv)~&@%+" = true
  /\ parsePrefixes "(qaohv)~&@%+" = ("qaohv", "~&@%+")%string.
Proof.
  apply (parsePrefixes_roundtrip "qaohv" "~&@%+"); reflexivity.
Defined.

(** X2.  Whatever [parsePrefixes] returns is either the empty pair or a reading
    of its input: the input is "(modes)symbols", the modes hold no closing
    parenthesis, and there are as many modes as symbols that are not a
    closing parenthesis. *)
Theorem parsePrefixes_sound (raw_ modes_ symbols : string) :
  parsePrefixes raw_ = (modes_, symbols) ->
  (modes_ = ""%string /\ symbols = ""%string)
  \/ (raw_ = ("(" ++ modes_ ++ ")" ++ symbols)%string
      /\ memb ")" modes_ = false
      /\ String.length modes_
         = length (filter (fun b => negb (Ascii.eqb ")" b)) (bytes symbols))).
Proof.
  unfold parsePrefixes.
  destruct (isValidUserPrefix raw_) eqn:Hv; cbn [negb];
    [|intros H; injection H as <- <-; now left].
  destruct (IndexByte raw_ ")" <? 1) eqn:Hi;
    [intros H; injection H as <- <-; now left|].
  apply Z.ltb_ge in Hi. intros H. injection H as Hm Hs. right.
  destruct raw_ as [|b rest]; [discriminate|].
  cbn [isValidUserPrefix] in Hv. rewrite byte_is_open_paren in Hv.
  destruct (Ascii.eqb "(" b) eqn:Hb; [|discriminate]. cbn [negb] in Hv.
  apply Ascii.eqb_eq in Hb. subst b.
  unfold IndexByte in *.
  destruct (IndexByte_from_split (String "(" rest) ")" 0 ltac:(lia)
              ltac:(lia)) as [Hsplit Hfree].
  rewrite Z.sub_0_r in Hsplit, Hfree.
  remember (IndexByte_from 0 (String "(" rest) ")") as i eqn:Ei.
  clear Ei.
  unfold slice, slice_from in Hm, Hs.
  replace (Z.to_nat i) with (S (Z.to_nat (i - 1))) in Hsplit, Hfree by lia.
  replace (Z.to_nat (i + 1)) with (S (S (Z.to_nat (i - 1)))) in Hs by lia.
  replace (Z.to_nat 1) with 1%nat in Hm by lia.
  cbn [take drop append] in Hsplit, Hfree, Hm, Hs.
  rewrite Hm, Hs in Hsplit. rewrite Hm in Hfree.
  injection Hsplit as Hrest.
  unfold memb in Hfree. cbn [bytes existsb] in Hfree.
  apply orb_false_iff in Hfree. destruct Hfree as [_ Hfree].
  split; [cbn [append]; now rewrite <- Hrest|].
  split; [exact Hfree|].
  rewrite Hrest, bytes_app in Hv. cbn [bytes] in Hv.
  rewrite (isValidUserPrefix_loop_keys _ _ _ _ Hfree) in Hv.
  rewrite isValidUserPrefix_loop_passed in Hv.
  apply Z.eqb_eq in Hv. lia.
Qed.

Lemma parsePrefixes_sound_witness :
  ("(ov)@+" = "(" ++ "ov" ++ ")" ++ "@+")%string.
Proof.
  destruct (parsePrefixes_sound "(ov)@+" "ov" "@+" eq_refl)
    as [[H _]|[H _]]; [discriminate | exact H].
Defined.

(** *** [chanModes], [userPrefixes] *)

(** X3.  When the two package defaults pass their checks, [chanModes] and
    [userPrefixes] return strings that pass them too, whatever the server
    advertised, and a mode set built from them has a classification that
    is not empty. *)
Theorem session_tables_valid (serverOptions : string -> option string)
    (ModeDefaults DefaultPrefixes : string) :
  isValidChannelMode ModeDefaults = true ->
  isValidUserPrefix DefaultPrefixes = true ->
  let cm := chanModes serverOptions ModeDefaults in
  let up := userPrefixes serverOptions DefaultPrefixes in
  isValidChannelMode cm = true
  /\ isValidUserPrefix up = true
  /\ (len (raw (newCModes cm up)) <? 1) = false.
Proof.
  intros Hm Hp cm up.
  assert (Hcm : isValidChannelMode cm = true).
  { subst cm. unfold chanModes.
    destruct (serverOptions "CHANMODES") as [m|]; [|exact Hm].
    destruct (isValidChannelMode m) eqn:E; [exact E | exact Hm]. }
  split; [exact Hcm|]. split.
  - subst up. unfold userPrefixes.
    destruct (serverOptions "PREFIX") as [p|]; [|exact Hp].
    destruct (isValidUserPrefix p) eqn:E; [exact E | exact Hp].
  - cbn [newCModes raw]. unfold isValidChannelMode in Hcm.
    destruct (len cm <? 1); [discriminate | reflexivity].
Qed.

Lemma session_tables_valid_witness :
  let opts := fun k => if String.eqb k "CHANMODES" then Some "b,,!"%string
                       else None in
  chanModes opts "b,k,l,imnpst" = "b,k,l,imnpst"%string
  /\ isValidChannelMode (chanModes opts "b,k,l,imnpst") = true.
Proof.
  intros opts. split; [reflexivity|].
  apply (session_tables_valid opts "b,k,l,imnpst" "(ov)@+");
    reflexivity.
Defined.

(** *** [newCModes] *)

Local Arguments memb : simpl never.

Lemma cut_spec (s : string) (sep : ascii) :
  match cut s sep with
  | Some (a, b) => s = (a ++ String sep b)%string /\ memb sep a = false
  | None => memb sep s = false
  end.
Proof.
  unfold memb. induction s as [|x s IH]; cbn [cut bytes existsb];
    [reflexivity|].
  destruct (Ascii.eqb x sep) eqn:E.
  - apply Ascii.eqb_eq in E. subst x. now split.
  - rewrite (Ascii.eqb_sym sep x), E. cbn [orb].
    destruct (cut s sep) as [[a b]|].
    + destruct IH as [-> Ha]. split; [reflexivity|].
      cbn [bytes existsb]. now rewrite (Ascii.eqb_sym sep x), E.
    + exact IH.
Qed.

(** X4.  [newCModes] never leaves a comma in the list, always-argument and
    argument-when-set buckets, whatever the classification string is. *)
Theorem newCModes_buckets_comma_free (channelModes userPrefixes_ : string) :
  let c := newCModes channelModes userPrefixes_ in
  comma_free (modesListArgs c) = true
  /\ comma_free (modesArgs c) = true
  /\ comma_free (modesSetArgs c) = true.
Proof.
  unfold newCModes, comma_free. cbn [SplitN].
  pose proof (cut_spec channelModes ",") as H1.
  destruct (cut channelModes ",") as [[a r1]|];
    [|cbn; rewrite H1; auto].
  destruct H1 as [_ Ha].
  pose proof (cut_spec r1 ",") as H2.
  destruct (cut r1 ",") as [[b r2]|]; [|cbn; rewrite Ha, H2; auto].
  destruct H2 as [_ Hb].
  pose proof (cut_spec r2 ",") as H3.
  destruct (cut r2 ",") as [[c3 d]|]; [|cbn; rewrite Ha, Hb, H3; auto].
  destruct H3 as [_ Hc]. cbn. rewrite Ha, Hb, Hc. auto.
Qed.

Lemma commas_app (a b : string) :
  length (filter (Ascii.eqb ",") (bytes (a ++ String "," b)))
  = (length (filter (Ascii.eqb ",") (bytes a)) + 1
     + length (filter (Ascii.eqb ",") (bytes b)))%nat.
Proof.
  rewrite bytes_app, filter_app, length_app. cbn [bytes filter].
  rewrite Ascii.eqb_refl. cbn [length]. lia.
Qed.

Lemma commas_none (a : string) :
  memb "," a = false -> length (filter (Ascii.eqb ",") (bytes a)) = 0%nat.
Proof.
  unfold memb. induction a as [|x a IH]; cbn [bytes existsb filter];
    [reflexivity|].
  intros H. apply orb_false_iff in H. destruct H as [Hx Ha].
  rewrite Hx. auto.
Qed.

(** X5.  Joining the four buckets of [newCModes] with commas gives the
    classification string back, followed by one comma for each of the
    three separators it lacked. *)
Theorem newCModes_rejoin (channelModes userPrefixes_ : string) :
  let c := newCModes channelModes userPrefixes_ in
  let commas := length (filter (Ascii.eqb ",") (bytes channelModes)) in
  classification (modesListArgs c) (modesArgs c) (modesSetArgs c)
                 (modesNoArgs c)
  = (channelModes
     ++ string_of_list_ascii (repeat ","%char (3 - commas)))%string.
Proof.
  unfold newCModes, classification. cbn [SplitN]. cbv zeta.
  pose proof (cut_spec channelModes ",") as H1.
  destruct (cut channelModes ",") as [[a r1]|].
  - destruct H1 as [-> Ha].
    pose proof (cut_spec r1 ",") as H2.
    destruct (cut r1 ",") as [[b r2]|].
    + destruct H2 as [-> Hb].
      pose proof (cut_spec r2 ",") as H3.
      destruct (cut r2 ",") as [[c3 d]|].
      * destruct H3 as [-> Hc].
        rewrite !commas_app.
        replace (3 - _)%nat with 0%nat by lia.
        cbn. apply bytes_inj. rewrite !bytes_app. cbn.
        rewrite !bytes_app. cbn. rewrite !bytes_app. cbn.
        now rewrite app_nil_r.
      * rewrite !commas_app, (commas_none _ Ha), (commas_none _ Hb),
          (commas_none _ H3). cbn.
        apply bytes_inj. rewrite !bytes_app. cbn.
        rewrite !bytes_app. cbn. rewrite !bytes_app. cbn.
        repeat (rewrite <- app_assoc; cbn [app]); reflexivity.
    + rewrite !commas_app, (commas_none _ Ha), (commas_none _ H2). cbn.
      apply bytes_inj. rewrite !bytes_app. cbn.
      rewrite !bytes_app. cbn.
      repeat (rewrite <- app_assoc; cbn [app]); reflexivity.
  - rewrite (commas_none _ H1). cbn. reflexivity.
Qed.

(** *** [hasArg] and [parse] at the edges *)

Lemma hasArg_never_neither (c : CModes) (set : bool) (mode : ascii) :
  CModes_hasArg c set mode <> (false, false).
Proof.
  unfold CModes_hasArg.
  repeat match goal with
         | [ |- context [if ?b then _ else _] ] => destruct b
         end; discriminate.
Qed.

Lemma In_firstn {A} (n : nat) (l : list A) (x : A) :
  In x (firstn n l) -> In x l.
Proof.
  revert l. induction n as [|n IH]; intros [|a l]; simpl; try tauto.
  intros [H|H]; [now left | right; now apply IH].
Qed.

(** X6.  When the arguments are not empty and there are at least as many as
    modes that take one, every mode change [parse] marks as not persistent
    carries an argument. *)
Theorem parse_transient_modes_carry_argument (c : CModes) (flags : string)
    (args_ : list string) :
  Forall (fun a => a <> ""%string) args_ ->
  (length (filter (wants_arg c) (CModes_parse c flags args_))
   <= length args_)%nat ->
  forall m, In m (CModes_parse c flags args_) ->
    setting m = false -> args m <> ""%string.
Proof.
  intros Hne Hlen m Hin Hs.
  rewrite parse_is_spec in *. unfold parseFlags_spec in *.
  pose proof (attach_setting c _ _ m Hin) as Hset.
  assert (Hw : wants_arg c m = true).
  { unfold wants_arg.
    pose proof (hasArg_never_neither c (add m) (name m)) as Hn.
    destruct (CModes_hasArg c (add m) (name m)) as [[|] s];
      [reflexivity|].
    simpl in Hset. rewrite Hs in Hset. subst s. now elim Hn. }
  destruct (attach_positional c (polarities (bytes flags) true) args_)
    as [Hpos _].
  cbn zeta in Hpos.
  replace (_ - _)%nat with 0%nat in Hpos by lia.
  cbn [repeat] in Hpos. rewrite app_nil_r in Hpos.
  assert (Hm : In (args m) (map args (filter (wants_arg c)
                 (attach c (polarities (bytes flags) true) args_)))).
  { apply in_map. apply filter_In. now split. }
  rewrite Hpos in Hm. apply In_firstn in Hm.
  rewrite Forall_forall in Hne. now apply Hne.
Qed.

Lemma parse_transient_modes_carry_argument_witness :
  let c := newCModes "b,k,l,imnpst" "(ov)@+" in
  let m := mkCMode false "v" false "bob" in
  In m (CModes_parse c "+ok-v" ["alice"; "key"; "bob"])
  /\ args m <> ""%string.
Proof.
  intros c m.
  assert (Hin : In m (CModes_parse c "+ok-v" ["alice"; "key"; "bob"]))
    by (right; right; left; reflexivity).
  split; [exact Hin|].
  apply (parse_transient_modes_carry_argument c "+ok-v"
           ["alice"; "key"; "bob"]%string); [| |exact Hin|reflexivity].
  - repeat constructor; discriminate.
  - vm_compute. lia.
Defined.

(** X7.  Under an empty classification string [parse] makes every mode a
    persistent one without argument: no argument is consumed. *)
Theorem parse_empty_classification (c : CModes) (flags : string)
    (args_ : list string) :
  raw c = ""%string ->
  forall m, In m (CModes_parse c flags args_) ->
    setting m = true /\ args m = ""%string.
Proof.
  intros Hraw m Hin.
  assert (Hh : forall set mode, CModes_hasArg c set mode = (false, true))
    by (intros; unfold CModes_hasArg; now rewrite Hraw).
  rewrite parse_is_spec in Hin. unfold parseFlags_spec in Hin.
  split.
  - rewrite (attach_setting c _ _ m Hin), Hh. reflexivity.
  - destruct (attach_positional c (polarities (bytes flags) true) args_)
      as [_ Hno].
    apply Hno; [exact Hin|]. unfold wants_arg. now rewrite Hh.
Qed.

Lemma parse_empty_classification_witness :
  let m := mkCMode true "o" true "" in
  In m (CModes_parse (newCModes "" "(ov)@+") "+o-k" ["alice"; "key"])
  /\ setting m = true /\ args m = ""%string.
Proof.
  intros m.
  assert (Hin : In m (CModes_parse (newCModes "" "(ov)@+") "+o-k"
                                   ["alice"; "key"]))
    by (left; reflexivity).
  split; [exact Hin|].
  apply (parse_empty_classification (newCModes "" "(ov)@+") "+o-k"
           ["alice"; "key"]%string eq_refl m Hin).
Defined.
End ExtraModes.

Module ExtraMerge.
Import GoString Modes ModeSpec ModeFacts Validation Channel.

Lemma set_modes_same (c : CModes) : set_modes c (modes c) = c.
Proof. now destruct c. Qed.

(** The stored characters stay in front, in order. *)
Lemma apply_modes_names_prefix (stored incoming : list CMode) :
  exists extra,
    names (apply_modes stored incoming) = names stored ++ extra.
Proof.
  rewrite apply_modes_merge. unfold merge_spec.
  destruct (merge_appended_shape incoming (merge_kept stored incoming))
    as (appended & Heq & _).
  exists (names appended). rewrite Heq. unfold names.
  rewrite map_app. f_equal. apply merge_kept_names.
Qed.

(** X8.  A mode that [HasMode] reports is still reported after any [apply]:
    [apply] never unsets a stored mode. *)
Theorem apply_never_unsets (c : CModes) (incoming : list CMode)
    (mode : string) :
  CModes_HasMode c mode = true ->
  CModes_HasMode (CModes_apply c incoming) mode = true.
Proof.
  unfold CModes_HasMode. rewrite !HasMode_loop_In.
  intros (x & Hin & Hx). exists x. split; [|exact Hx].
  cbn [CModes_apply set_modes modes].
  destruct (apply_modes_names_prefix (modes c) incoming) as (extra & ->).
  apply in_or_app. now left.
Qed.

Lemma apply_never_unsets_witness :
  let c := mkCModes "b,k,l,imnpst" "b" "k" "l" "imnpst" "(ov)@+"
             [mkCMode true "m" true ""] in
  CModes_HasMode (CModes_apply c [mkCMode false "m" true ""]) "m" = true.
Proof.
  intros c. apply (apply_never_unsets c [mkCMode false "m" true ""] "m").
  reflexivity.
Defined.

(** X9.  [apply] of a list that holds no persistent add (removals and transient
    grants only) leaves the mode set exactly as it was. *)
Theorem apply_without_persistent_add (c : CModes) (incoming : list CMode) :
  (forall m, In m incoming -> setting m && add m = false) ->
  CModes_apply c incoming = c.
Proof.
  intros H. unfold CModes_apply.
  rewrite apply_modes_merge. unfold merge_spec.
  assert (Hk : merge_kept (modes c) incoming = modes c).
  { unfold merge_kept. rewrite <- map_id. apply map_ext_in.
    intros e _. rewrite find_none_kept; [reflexivity|].
    intros m Hin _. now apply H. }
  rewrite Hk.
  assert (Ha : merge_appended incoming (modes c) = modes c).
  { apply merge_appended_none. intros m Hin Hp.
    unfold persistent_add in Hp. rewrite (H m Hin) in Hp. discriminate. }
  rewrite Ha. apply set_modes_same.
Qed.

Lemma apply_without_persistent_add_witness :
  let c := mkCModes "b,k,l,imnpst" "b" "k" "l" "imnpst" "(ov)@+"
             [mkCMode true "m" true ""; mkCMode true "k" true "key"] in
  CModes_apply c [mkCMode false "k" true ""; mkCMode true "o" false "alice"]
  = c.
Proof.
  intros c. apply apply_without_persistent_add.
  intros m [<-|[<-|[]]]; reflexivity.
Defined.

(** X10.  Every entry stored in a mode set reachable from [newCModes] by
    [apply] is a persistent mode with polarity add. *)
Theorem reachable_stores_persistent_adds (channelModes userPrefixes_ : string)
    (c : CModes) :
  reachable channelModes userPrefixes_ c ->
  forall m, In m (modes c) -> setting m = true /\ add m = true.
Proof.
  induction 1 as [|c incoming Hreach IH]; intros m Hin.
  - destruct Hin.
  - cbn [CModes_apply set_modes modes] in Hin.
    rewrite apply_modes_merge in Hin. unfold merge_spec in Hin.
    destruct (merge_appended_shape incoming (merge_kept (modes c) incoming))
      as (appended & Heq & Hshape).
    rewrite Heq in Hin. apply in_app_or in Hin. destruct Hin as [Hin|Hin].
    + unfold merge_kept in Hin. apply in_map_iff in Hin.
      destruct Hin as (e & He & Hin).
      destruct (find (replaces e) incoming) as [m'|] eqn:E; subst m.
      * destruct (find_replaces_name _ _ _ E) as (_ & Hp & _).
        now apply andb_true_iff in Hp.
      * now apply IH.
    + destruct (Hshape m Hin) as (_ & Hp & _).
      now apply andb_true_iff in Hp.
Qed.

Lemma reachable_stores_persistent_adds_witness :
  let c0 := newCModes "b,k,l,imnpst" "(ov)@+" in
  let c1 := CModes_apply c0 (CModes_parse c0 "+ntk-l+o" ["key"; "alice"]) in
  let m := mkCMode true "k" true "key" in
  In m (modes c1) /\ setting m = true /\ add m = true.
Proof.
  intros c0 c1 m.
  assert (Hin : In m (modes c1)) by (right; right; left; reflexivity).
  split; [exact Hin|].
  apply (reachable_stores_persistent_adds "b,k,l,imnpst" "(ov)@+" c1);
    [apply reach_apply, reach_new | exact Hin].
Defined.

(** *** Lookups *)

Lemma of_byte_ascii_inj (x y : ascii) :
  (byte_val x <? 128) = true -> of_byte y = of_byte x -> y = x.
Proof.
  intros Hx. rewrite (of_byte_ascii x Hx). unfold of_byte.
  destruct (byte_val y <? 128); [|discriminate].
  now intros [= ->].
Qed.

(** [Get] answers from the first entry that renders as [mode]. *)
Lemma Get_loop_unique (ms : list CMode) (x : ascii) (m : CMode) :
  (byte_val x <? 128) = true ->
  In m ms -> name m = x ->
  (forall e, In e ms -> name e = x -> e = m) ->
  Get_loop ms (of_byte x)
  = if len (args m) =? 0 then (""%string, false) else (args m, true).
Proof.
  intros Hx. induction ms as [|e ms IH]; intros Hin Hn Huniq; [destruct Hin|].
  cbn [Get_loop].
  destruct (String.eqb (of_byte (name e)) (of_byte x)) eqn:E.
  - apply String.eqb_eq in E. apply (of_byte_ascii_inj _ _ Hx) in E.
    rewrite (Huniq e (or_introl eq_refl) E). reflexivity.
  - apply String.eqb_neq in E. destruct Hin as [->|Hin].
    + rewrite Hn in E. now elim E.
    + apply IH; auto. intros e' He'. apply Huniq. now right.
Qed.

(** X11.  After [apply], an ASCII mode character for which the incoming list has
    a persistent add is reported by [HasMode], and [Get] answers with the
    argument of the first such change (and not-ok if that argument is
    empty). *)
Theorem Get_after_apply (c : CModes) (incoming : list CMode) (x : ascii)
    (m : CMode) :
  (byte_val x <? 128) = true ->
  find (fun i => setting i && add i && Ascii.eqb x (name i)) incoming
  = Some m ->
  CModes_HasMode (CModes_apply c incoming) (of_byte x) = true
  /\ CModes_Get (CModes_apply c incoming) (of_byte x)
     = if len (args m) =? 0 then (""%string, false) else (args m, true).
Proof.
  intros Hx Hfind.
  assert (Hfind' : forall e, name e = x -> find (replaces e) incoming = Some m).
  { intros e He. rewrite <- Hfind. apply find_ext_in. intros i _.
    unfold replaces, persistent_add. now rewrite He. }
  pose proof (find_some _ _ Hfind) as [Hin Hm].
  apply andb_true_iff in Hm. destruct Hm as [Hp Hn].
  apply Ascii.eqb_eq in Hn. symmetry in Hn.
  destruct (merge_appended_first incoming []
              (merge_kept (modes c) incoming))
    as (appended & Heq & Hfirst & Hall); [intros ? []|].
  cbn [app] in Hfirst, Hall.
  assert (Hnew : apply_modes (modes c) incoming
                 = merge_kept (modes c) incoming ++ appended)
    by (rewrite apply_modes_merge; exact Heq).
  assert (Huniq : forall e, In e (apply_modes (modes c) incoming) ->
                    name e = x -> e = m).
  { intros e He Hex. rewrite Hnew in He.
    apply in_app_or in He. destruct He as [He|He].
    - pose proof (merge_kept_fixed _ _ _ He) as Hfix.
      rewrite (Hfind' e Hex) in Hfix. congruence.
    - specialize (Hfirst e He). rewrite (Hfind' e Hex) in Hfirst.
      congruence. }
  assert (Hrep : In x (names (apply_modes (modes c) incoming))).
  { rewrite Hnew, <- Hn. apply represented_In. now apply Hall. }
  assert (Hmem : In m (apply_modes (modes c) incoming)).
  { unfold names in Hrep. apply in_map_iff in Hrep.
    destruct Hrep as (e & He & Hine). now rewrite <- (Huniq e Hine He). }
  split.
  - unfold CModes_HasMode. apply HasMode_loop_In.
    exists x. split; [exact Hrep | reflexivity].
  - unfold CModes_Get. cbn [CModes_apply set_modes modes].
    now apply Get_loop_unique.
Qed.

Lemma Get_after_apply_witness :
  let c := newCModes "b,k,l,imnpst" "(ov)@+" in
  CModes_Get (CModes_apply c (CModes_parse c "+k-k+k" ["one"; "two"; "three"]))
             "k"
  = ("one"%string, true).
Proof.
  intros c.
  apply (proj2 (Get_after_apply c
                  (CModes_parse c "+k-k+k" ["one"; "two"; "three"]) "k"
                  (mkCMode true "k" true "one") eq_refl eq_refl)).
Defined.

(** X12.  [Get] answers the empty string and not-ok for a mode [HasMode] does
    not report; when it answers ok the argument is not empty and [HasMode]
    reports the mode; when it answers not-ok the argument is empty. *)
Theorem Get_answers (c : CModes) (mode : string) :
  (CModes_HasMode c mode = false -> CModes_Get c mode = (""%string, false))
  /\ (forall a, CModes_Get c mode = (a, true) ->
        a <> ""%string /\ CModes_HasMode c mode = true)
  /\ (forall a, CModes_Get c mode = (a, false) -> a = ""%string).
Proof.
  unfold CModes_HasMode, CModes_Get.
  induction (modes c) as [|m ms IH]; cbn [HasMode_loop Get_loop].
  - repeat split; intros; try congruence; try discriminate.
  - destruct (String.eqb (of_byte (name m)) mode); [|exact IH].
    repeat split.
    + discriminate.
    + destruct (len (args m) =? 0) eqn:E; [discriminate|].
      injection H as <-. intros Hz. rewrite Hz in E. discriminate.
    + destruct (len (args m) =? 0); congruence.
Qed.

Lemma Get_answers_witness :
  CModes_Get (newCModes "b,k,l,imnpst" "(ov)@+") "k" = (""%string, false).
Proof.
  apply (proj1 (Get_answers (newCModes "b,k,l,imnpst" "(ov)@+") "k")).
  reflexivity.
Defined.

(** *** Tracked channels *)

Lemma hasArg_after_apply (c : CModes) (incoming : list CMode) (set : bool)
    (mode : ascii) :
  CModes_hasArg (CModes_apply c incoming) set mode = CModes_hasArg c set mode.
Proof. reflexivity. Qed.

(** X13.  In the mode set of a channel tracked through MODE events every stored
    entry is a persistent add whose character is not a sign and which
    [hasArg] classifies as a setting; it carries an argument only if
    [hasArg] gives it one, and under a non-empty classification it is
    never a list-type mode. *)
Theorem tracked_stores_classified (channelModes userPrefixes_ : string)
    (c : CModes) :
  tracked channelModes userPrefixes_ c ->
  forall m, In m (modes c) ->
    add m = true /\ setting m = true
    /\ is_sign (name m) = false
    /\ snd (CModes_hasArg c true (name m)) = true
    /\ (args m <> ""%string -> fst (CModes_hasArg c true (name m)) = true)
    /\ ((len (raw c) <? 1) = false ->
        memb (name m) (modesListArgs c) = false).
Proof.
  assert (Hlist : forall c m, snd (CModes_hasArg c true (name m)) = true ->
            (len (raw c) <? 1) = false ->
            memb (name m) (modesListArgs c) = false).
  { intros c0 m Hs Hr. unfold CModes_hasArg in Hs.
    rewrite Hr, IndexByte_memb in Hs.
    destruct (memb (name m) (modesListArgs c0)); [discriminate | reflexivity]. }
  induction 1 as [|c flags args_ Htr IH]; intros m Hin; [destruct Hin|].
  unfold handleMODE_modes in *.
  assert (Hcases : In m (modes c)
            \/ (In m (CModes_parse c flags args_)
                /\ setting m = true /\ add m = true)).
  { cbn [CModes_apply set_modes modes] in Hin.
    rewrite apply_modes_merge in Hin. unfold merge_spec in Hin.
    destruct (merge_appended_shape (CModes_parse c flags args_)
                (merge_kept (modes c) (CModes_parse c flags args_)))
      as (appended & Heq & Hshape).
    rewrite Heq in Hin. apply in_app_or in Hin. destruct Hin as [Hin|Hin].
    - unfold merge_kept in Hin. apply in_map_iff in Hin.
      destruct Hin as (e & He & Hin).
      destruct (find (replaces e) (CModes_parse c flags args_))
        as [m'|] eqn:E; subst m.
      + destruct (find_replaces_name _ _ _ E) as (H1 & Hp & _).
        apply andb_true_iff in Hp. right. tauto.
      + now left.
    - destruct (Hshape m Hin) as (H1 & Hp & _).
      apply andb_true_iff in Hp. right. tauto. }
  destruct Hcases as [Hold|(Hp & Hs & Ha)].
  - destruct (IH m Hold) as (H1 & H2 & H3 & H4 & H5 & H6).
    repeat split; auto.
  - assert (Hsign : is_sign (name m) = false).
    { assert (Hn : In (name m) (names (CModes_parse c flags args_)))
        by (unfold names; now apply in_map).
      rewrite parse_names in Hn. apply filter_In in Hn.
      now apply negb_true_iff. }
    rewrite parse_is_spec in Hp. unfold parseFlags_spec in Hp.
    pose proof (attach_setting c _ _ m Hp) as Hset.
    rewrite Ha, Hs in Hset.
    destruct (attach_positional c (polarities (bytes flags) true) args_)
      as [_ Hno].
    assert (Harg : args m <> ""%string ->
                   fst (CModes_hasArg c true (name m)) = true).
    { intros Hne. specialize (Hno m Hp). unfold wants_arg in Hno.
      rewrite Ha in Hno.
      destruct (fst (CModes_hasArg c true (name m))); [reflexivity|].
      now elim Hne; apply Hno. }
    rewrite !hasArg_after_apply.
    repeat split; auto.
Qed.

Lemma tracked_stores_classified_witness :
  let c0 := newCModes "b,k,l,imnpst" "(ov)@+" in
  let c1 := handleMODE_modes c0 "+ntk+b-l+o" ["key"; "*!*@host"; "alice"] in
  let m := mkCMode true "k" true "key" in
  In m (modes c1) /\ memb (name m) (modesListArgs c1) = false.
Proof.
  intros c0 c1 m.
  assert (Hin : In m (modes c1)) by (right; right; left; reflexivity).
  split; [exact Hin|].
  apply (tracked_stores_classified "b,k,l,imnpst" "(ov)@+" c1);
    [apply tracked_mode, tracked_new | exact Hin | reflexivity].
Defined.

(** *** Rendering *)

Lemma String_loop_prefix (ms : list CMode) (out a : string) :
  exists t, fst (String_loop ms out a) = (out ++ t)%string.
Proof.
  revert out a. induction ms as [|m ms IH]; intros out a; cbn [String_loop].
  - exists ""%string. cbn [fst]. now rewrite append_nil_r.
  - destruct (IH (out ++ of_byte (name m))%string
                (if 0 <? len (args m) then (a ++ " " ++ args m)%string
                 else a)) as (t & Ht).
    exists (of_byte (name m) ++ t)%string. rewrite Ht.
    apply bytes_inj. rewrite !bytes_app. now rewrite app_assoc.
Qed.

(** The rendering is empty exactly for the empty set. *)
Theorem String_empty_iff (c : CModes) :
  CModes_String c = ""%string <-> modes c = [].
Proof.
  unfold CModes_String, String_parts. split.
  - destruct (modes c) as [|m ms]; [reflexivity|].
    change (0 <? Z.of_nat (length (m :: ms))) with true. cbv iota.
    destruct (String_loop_prefix (m :: ms) "+" "") as (t & Ht).
    destruct (String_loop (m :: ms) "+" "") as [out a].
    cbn [fst] in Ht. subst out. discriminate.
  - intros ->. reflexivity.
Qed.
End ExtraMerge.

Module ExtraPerms.
Import GoString Modes ModeFacts Perms.

Section WithConsts.
Variable K : PermConsts.

Lemma set_byte_keeps (m : UserPerms) (b : ascii) :
  (Owner m = true -> Owner (set_byte K m b) = true)
  /\ (Admin m = true -> Admin (set_byte K m b) = true)
  /\ (Op m = true -> Op (set_byte K m b) = true)
  /\ (HalfOp m = true -> HalfOp (set_byte K m b) = true)
  /\ (Voice m = true -> Voice (set_byte K m b) = true).
Proof.
  unfold set_byte.
  repeat match goal with
         | [ |- context [if String.eqb ?a ?b then _ else _] ] =>
             destruct (String.eqb a b)
         end; cbn; auto.
Qed.

Lemma set_loop_keeps (l : list ascii) (m : UserPerms) :
  (Owner m = true -> Owner (set_loop K m l) = true)
  /\ (Admin m = true -> Admin (set_loop K m l) = true)
  /\ (Op m = true -> Op (set_loop K m l) = true)
  /\ (HalfOp m = true -> HalfOp (set_loop K m l) = true)
  /\ (Voice m = true -> Voice (set_loop K m l) = true).
Proof.
  revert m. induction l as [|b l IH]; intros m; cbn [set_loop]; [tauto|].
  destruct (IH (set_byte K m b)) as (I1 & I2 & I3 & I4 & I5).
  destruct (set_byte_keeps m b) as (B1 & B2 & B3 & B4 & B5).
  repeat split; auto.
Qed.

End WithConsts.

(** X14.  [set] with [append] true never clears a grant: every permission held
    before is held after, and so are [IsAdmin] and [IsTrusted]. *)
Theorem set_append_never_clears (K : PermConsts) (m : UserPerms)
    (prefix : string) :
  let m' := set K m prefix true in
  (Owner m = true -> Owner m' = true)
  /\ (Admin m = true -> Admin m' = true)
  /\ (Op m = true -> Op m' = true)
  /\ (HalfOp m = true -> HalfOp m' = true)
  /\ (Voice m = true -> Voice m' = true)
  /\ (IsAdmin m = true -> IsAdmin m' = true)
  /\ (IsTrusted m = true -> IsTrusted m' = true).
Proof.
  cbv zeta. unfold set. cbn [negb].
  destruct (set_loop_keeps K (bytes prefix) m) as (H1 & H2 & H3 & H4 & H5).
  repeat split; auto; unfold IsTrusted, IsAdmin;
    destruct (Owner m), (Admin m), (Op m), (HalfOp m), (Voice m);
    cbn; intros; try discriminate;
    rewrite ?H1, ?H2, ?H3, ?H4, ?H5 by reflexivity;
    cbn; rewrite ?orb_true_r; reflexivity.
Qed.

Lemma set_append_never_clears_witness :
  Op (set usual (mkPerms false false true false false) "+" true) = true.
Proof.
  apply (set_append_never_clears usual
           (mkPerms false false true false false) "+").
  reflexivity.
Defined.

(** The bytes of a prefix that read as the symbol [k]. *)
Lemma set_loop_grants (K : PermConsts) (l : list ascii) (m : UserPerms) :
  NoDup [OwnerPrefix K; AdminPrefix K; OperatorPrefix K;
         HalfOperatorPrefix K; VoicePrefix K] ->
  let has k := existsb (fun b => String.eqb (of_byte b) k) l in
  set_loop K m l
  = mkPerms (Owner m || has (OwnerPrefix K))
            (Admin m || has (AdminPrefix K))
            (Op m || has (OperatorPrefix K))
            (HalfOp m || has (HalfOperatorPrefix K))
            (Voice m || has (VoicePrefix K)).
Proof.
  intros Hnd. cbv zeta. revert m.
  induction l as [|b l IH]; intros m; cbn [set_loop existsb].
  - rewrite !orb_false_r. now destruct m.
  - rewrite IH. unfold set_byte.
    destruct (String.eqb (of_byte b) (OwnerPrefix K)) eqn:E1;
      [apply String.eqb_eq in E1|];
    (destruct (String.eqb (of_byte b) (AdminPrefix K)) eqn:E2;
      [apply String.eqb_eq in E2|]);
    (destruct (String.eqb (of_byte b) (OperatorPrefix K)) eqn:E3;
      [apply String.eqb_eq in E3|]);
    (destruct (String.eqb (of_byte b) (HalfOperatorPrefix K)) eqn:E4;
      [apply String.eqb_eq in E4|]);
    (destruct (String.eqb (of_byte b) (VoicePrefix K)) eqn:E5;
      [apply String.eqb_eq in E5|]);
    try (exfalso;
         repeat match goal with
                | [ H : NoDup (_ :: _) |- _ ] => inversion H; clear H; subst
                end;
         cbn [In] in *; intuition congruence);
    cbn [Owner Admin Op HalfOp Voice orb];
    rewrite ?orb_true_r, ?orb_assoc; reflexivity.
Qed.

(** X15.  With five distinct prefix symbols, [set] with [append] false yields
    exactly the grants whose symbol occurs in the prefix, whatever the
    permissions were before. *)
Theorem set_fresh_reads_symbols (K : PermConsts) (m : UserPerms)
    (prefix : string) :
  NoDup [OwnerPrefix K; AdminPrefix K; OperatorPrefix K;
         HalfOperatorPrefix K; VoicePrefix K] ->
  let has k := existsb (fun b => String.eqb (of_byte b) k) (bytes prefix) in
  set K m prefix false
  = mkPerms (has (OwnerPrefix K)) (has (AdminPrefix K))
            (has (OperatorPrefix K)) (has (HalfOperatorPrefix K))
            (has (VoicePrefix K)).
Proof.
  intros Hnd. cbv zeta. unfold set. cbn [negb reset].
  now rewrite (set_loop_grants K _ _ Hnd).
Qed.

Lemma set_fresh_reads_symbols_witness :
  set usual (mkPerms true true false false false) "@+" false
  = mkPerms false false true false true.
Proof.
  rewrite (set_fresh_reads_symbols usual); [reflexivity|].
  repeat constructor; cbn; intuition discriminate.
Defined.

(** X16.  Of two [setFromMode] calls for the same mode character the second
    decides: the result is the one of the second call alone. *)
Theorem setFromMode_last_wins (K : PermConsts) (m : UserPerms)
    (first second : CMode) :
  name first = name second ->
  setFromMode K (setFromMode K m first) second = setFromMode K m second.
Proof.
  intros Hn. unfold setFromMode. rewrite Hn.
  repeat match goal with
         | [ |- context [if String.eqb ?a ?b then _ else _] ] =>
             destruct (String.eqb a b)
         end; reflexivity.
Qed.

Lemma setFromMode_last_wins_witness :
  setFromMode usual
    (setFromMode usual (mkPerms false false false false false)
                 (mkCMode true "o" false "alice"))
    (mkCMode false "o" false "alice")
  = mkPerms false false false false false.
Proof.
  rewrite (setFromMode_last_wins usual); reflexivity.
Defined.

(** *** [parseUserPrefix] *)

Lemma one_byte_symbol (K : PermConsts) (b : ascii) :
  String.length (OwnerPrefix K) = 1%nat ->
  String.length (AdminPrefix K) = 1%nat ->
  String.length (OperatorPrefix K) = 1%nat ->
  String.length (HalfOperatorPrefix K) = 1%nat ->
  String.length (VoicePrefix K) = 1%nat ->
  is_prefix_symbol K b = true -> of_byte b = String b EmptyString.
Proof.
  intros H1 H2 H3 H4 H5 Hs. unfold is_prefix_symbol in Hs.
  assert (Hlen : String.length (of_byte b) = 1%nat).
  { repeat (apply orb_true_iff in Hs; destruct Hs as [Hs|Hs]);
      apply String.eqb_eq in Hs; congruence. }
  unfold of_byte in *. destruct (byte_val b <? 128); [reflexivity|].
  discriminate.
Qed.

Lemma parseUserPrefix_loop_spec (K : PermConsts) (raw_ acc : string) :
  String.length (OwnerPrefix K) = 1%nat ->
  String.length (AdminPrefix K) = 1%nat ->
  String.length (OperatorPrefix K) = 1%nat ->
  String.length (HalfOperatorPrefix K) = 1%nat ->
  String.length (VoicePrefix K) = 1%nat ->
  exists symbols nick,
    parseUserPrefix_loop K raw_ acc
    = ((acc ++ symbols)%string, nick,
       match nick with EmptyString => false | _ => true end)
    /\ raw_ = (symbols ++ nick)%string
    /\ forallb (is_prefix_symbol K) (bytes symbols) = true
    /\ match nick with
       | EmptyString => True
       | String b _ => is_prefix_symbol K b = false
       end.
Proof.
  intros H1 H2 H3 H4 H5. revert acc.
  induction raw_ as [|b rest IH]; intros acc; cbn [parseUserPrefix_loop].
  - exists ""%string, ""%string. rewrite append_nil_r. auto.
  - destruct (is_prefix_symbol K b) eqn:E.
    + destruct (IH (acc ++ of_byte b)%string)
        as (symbols & nick & Heq & Hraw & Hall & Hnick).
      exists (String b symbols), nick. rewrite Heq.
      rewrite (one_byte_symbol K b H1 H2 H3 H4 H5 E).
      repeat split; auto.
      * f_equal. f_equal. apply bytes_inj. rewrite !bytes_app. cbn.
        now rewrite <- app_assoc.
      * cbn. now rewrite Hraw.
      * cbn. now rewrite E, Hall.
    + exists ""%string, (String b rest). rewrite append_nil_r. auto.
Qed.

(** X17.  With one-byte prefix symbols, [parseUserPrefix] splits its input into
    the leading run of prefix symbols and the rest: the two parts
    concatenate to the input, the rest does not start with a prefix symbol,
    and the call succeeds exactly when the rest is not empty. *)
Theorem parseUserPrefix_splits (K : PermConsts) (raw_ : string) :
  String.length (OwnerPrefix K) = 1%nat ->
  String.length (AdminPrefix K) = 1%nat ->
  String.length (OperatorPrefix K) = 1%nat ->
  String.length (HalfOperatorPrefix K) = 1%nat ->
  String.length (VoicePrefix K) = 1%nat ->
  exists symbols nick,
    parseUserPrefix K raw_
    = (symbols, nick, match nick with EmptyString => false | _ => true end)
    /\ raw_ = (symbols ++ nick)%string
    /\ forallb (is_prefix_symbol K) (bytes symbols) = true
    /\ match nick with
       | EmptyString => True
       | String b _ => is_prefix_symbol K b = false
       end.
Proof.
  intros H1 H2 H3 H4 H5. unfold parseUserPrefix.
  destruct (parseUserPrefix_loop_spec K raw_ "" H1 H2 H3 H4 H5)
    as (symbols & nick & Heq & Hrest).
  exists symbols, nick. split; [exact Heq | exact Hrest].
Qed.

Lemma parseUserPrefix_splits_witness :
  exists symbols nick,
    parseUserPrefix usual "@+alice"
    = (symbols, nick, match nick with EmptyString => false | _ => true end)
    /\ "@+alice"%string = (symbols ++ nick)%string
    /\ forallb (is_prefix_symbol usual) (bytes symbols) = true
    /\ match nick with
       | EmptyString => True
       | String b _ => is_prefix_symbol usual b = false
       end.
Proof.
  apply (parseUserPrefix_splits usual "@+alice"); reflexivity.
Defined.
End ExtraPerms.

Module ExtraClient.
Import GoString Client ClientFacts ClientOps Sample.

Lemma Sys_eta (s : Sys) : mkSys (client s) (trace s) (clock s) = s.
Proof. now destruct s. Qed.

Lemma send_all_passes (X : Externals) (events : list Event) (s : Sys) :
  (forall k, encode_ok X k = true) ->
  send_all X events s
  = (None, mkSys (client s) (trace s ++ map ActEncode events) (clock s)).
Proof.
  intros Hok. revert s.
  induction events as [|e rest IH]; intros s; cbn [send_all map].
  - rewrite app_nil_r, Sys_eta. reflexivity.
  - unfold bind, Send. run. rewrite Hok. cbn. rewrite IH. cbn.
    now rewrite <- app_assoc.
Qed.

(** The handshake [Connect] sends for a configuration. *)
Lemma Connect_succeeds (X : Externals) (s : Sys) (h : nat) :
  let cfg := Config_ (client s) in
  Server cfg <> ""%string ->
  21 <= Port cfg <= 65535 ->
  IsValidNick X (Nick cfg) = true ->
  IsValidUser X (User_ cfg) = true ->
  Conn cfg = None ->
  dial_result X (dials (trace s)) = Some h ->
  (forall k, encode_ok X k = true) ->
  let realname := if String.eqb (Name cfg) "" then User_ cfg else Name cfg in
  let handshake :=
    (if String.eqb (Password cfg) "" then []
     else [mkEvent (PASS X) [Password cfg] "" false])
    ++ [mkEvent (NICK X) [Nick cfg] "" false;
        mkEvent (USER X) [User_ cfg; "+iw"; "*"]%string realname false] in
  Connect X s
  = (None,
     mkSys (mkClient (with_Name realname cfg)
                     (mkState (Some h) true (Some (clock s)) "" false false [])
                     (Callbacks (client s)) 0)
           (trace s
            ++ ActDial (TLSConfig cfg) (Server cfg) (Port cfg)
               :: map ActEncode handshake ++ [ActGoReadLoop])
           (clock s)).
Proof.
  intros cfg Hs Hp Hn Hu Hc Hd Hok realname handshake.
  subst cfg realname handshake.
  unfold Connect, dial, connectMessages. run.
  apply String.eqb_neq in Hs. rewrite Hs.
  assert (Hp1 : (Port (Config_ (client s)) <? 21) = false)
    by (apply Z.ltb_ge; lia).
  assert (Hp2 : (Port (Config_ (client s)) >? 65535) = false)
    by (rewrite Z.gtb_ltb; apply Z.ltb_ge; lia).
  rewrite Hp1, Hp2, Hn, Hu, Hc. simpl. rewrite Hd. simpl.
  destruct (String.eqb (Name (Config_ (client s))) "") eqn:En; cbn;
    rewrite (send_all_passes X _ _ Hok); cbn;
    destruct (String.eqb (Password (Config_ (client s))) ""); cbn;
    repeat (rewrite <- app_assoc; cbn [app]);
    try reflexivity.
  all: destruct s as [[cfg st cb tr] t k]; destruct cfg; cbn in *;
    rewrite ?En; subst; reflexivity.
Qed.

(** X18.  With a valid configuration, a transport that opens and accepts every
    write, [Connect] returns no error, opens the transport once, sends the
    password (only if one is set), then the nickname, then user and real
    name (the user name when no real name is set), starts the read loop,
    and leaves a fresh session state marked connected at the current time
    with the retry counter at zero. *)
Theorem Connect_handshake (X : Externals) (s : Sys) (h : nat) :
  let cfg := Config_ (client s) in
  Server cfg <> ""%string ->
  21 <= Port cfg <= 65535 ->
  IsValidNick X (Nick cfg) = true ->
  IsValidUser X (User_ cfg) = true ->
  Conn cfg = None ->
  dial_result X (dials (trace s)) = Some h ->
  (forall k, encode_ok X k = true) ->
  let realname := if String.eqb (Name cfg) "" then User_ cfg else Name cfg in
  let handshake :=
    (if String.eqb (Password cfg) "" then []
     else [mkEvent (PASS X) [Password cfg] "" false])
    ++ [mkEvent (NICK X) [Nick cfg] "" false;
        mkEvent (USER X) [User_ cfg; "+iw"; "*"]%string realname false] in
  let s' := snd (Connect X s) in
  fst (Connect X s) = None
  /\ trace s'
     = trace s
       ++ ActDial (TLSConfig cfg) (Server cfg) (Port cfg)
          :: map ActEncode handshake ++ [ActGoReadLoop]
  /\ state_ (client s')
     = mkState (Some h) true (Some (clock s)) "" false false []
  /\ tries (client s') = 0.
Proof.
  intros cfg Hs Hp Hn Hu Hc Hd Hok realname handshake s'. subst s'.
  rewrite (Connect_succeeds X s h Hs Hp Hn Hu Hc Hd Hok).
  repeat split; reflexivity.
Qed.

Lemma Connect_handshake_witness :
  trace (snd (Connect working_transport fresh_client))
  = [ActDial false "irc.example.org" 6667;
     ActEncode (mkEvent "PASS" ["secret"] "" false);
     ActEncode (mkEvent "NICK" ["girc"] "" false);
     ActEncode (mkEvent "USER" ["girc"; "+iw"; "*"] "girc" false);
     ActGoReadLoop]%string.
Proof.
  apply (Connect_handshake working_transport fresh_client 0%nat);
    try reflexivity; try discriminate; cbn; lia.
Defined.

(** X19.  With a valid configuration and a transport that does not open,
    [Connect] returns the transport error after one open attempt and leaves
    a fresh, disconnected session state; it sends nothing, starts no read
    loop and keeps the retry counter. *)
Theorem Connect_dial_failure (X : Externals) (s : Sys) :
  let cfg := Config_ (client s) in
  Server cfg <> ""%string ->
  21 <= Port cfg <= 65535 ->
  IsValidNick X (Nick cfg) = true ->
  IsValidUser X (User_ cfg) = true ->
  Conn cfg = None ->
  dial_result X (dials (trace s)) = None ->
  Connect X s
  = (Some (ErrTransport (dials (trace s))),
     mkSys (mkClient cfg newState (Callbacks (client s)) (tries (client s)))
           (trace s ++ [ActDial (TLSConfig cfg) (Server cfg) (Port cfg)])
           (clock s)).
Proof.
  intros cfg Hs Hp Hn Hu Hc Hd. subst cfg.
  unfold Connect, dial. run.
  apply String.eqb_neq in Hs. rewrite Hs.
  assert (Hp1 : (Port (Config_ (client s)) <? 21) = false)
    by (apply Z.ltb_ge; lia).
  assert (Hp2 : (Port (Config_ (client s)) >? 65535) = false)
    by (rewrite Z.gtb_ltb; apply Z.ltb_ge; lia).
  rewrite Hp1, Hp2, Hn, Hu, Hc. simpl. rewrite Hd. reflexivity.
Qed.

Lemma Connect_dial_failure_witness :
  connected (state_ (client (snd (Connect failing_transport
                                          connected_client)))) = false.
Proof.
  rewrite (Connect_dial_failure failing_transport connected_client);
    try reflexivity; try discriminate; cbn; lia.
Defined.

(** X20.  [Uptime] answers not-connected on a disconnected client, and after a
    successful [Connect] it answers the time of that connect. *)
Theorem Uptime_reports_connect_time (X : Externals) (s : Sys) (h : nat) :
  let cfg := Config_ (client s) in
  Server cfg <> ""%string ->
  21 <= Port cfg <= 65535 ->
  IsValidNick X (Nick cfg) = true ->
  IsValidUser X (User_ cfg) = true ->
  Conn cfg = None ->
  dial_result X (dials (trace s)) = Some h ->
  (forall k, encode_ok X k = true) ->
  (connected (state_ (client s)) = false ->
   fst (Uptime s) = (None, Some ErrNotConnected))
  /\ fst (Uptime (snd (Connect X s))) = (Some (clock s), None).
Proof.
  intros cfg Hs Hp Hn Hu Hc Hd Hok. split.
  - intros Hnc. unfold Uptime, IsConnected. run. now rewrite Hnc.
  - rewrite (Connect_succeeds X s h Hs Hp Hn Hu Hc Hd Hok). reflexivity.
Qed.

Lemma Uptime_reports_connect_time_witness :
  fst (Uptime (snd (Connect working_transport fresh_client)))
  = (Some 7, None).
Proof.
  apply (Uptime_reports_connect_time working_transport fresh_client 0%nat);
    try reflexivity; try discriminate; cbn; lia.
Defined.

(** *** [Quit] *)

(** X21.  On a client with a connection, [Quit] sends one QUIT event with the
    message, closes the connection, and leaves the quit flag cleared; the
    connected and reconnecting flags, the nickname, the configuration and
    the retry counter are as before. *)
Theorem Quit_effect (X : Externals) (message : string) (s : Sys) (h : nat) :
  conn (state_ (client s)) = Some h ->
  let s' := snd (Quit X message s) in
  trace s'
  = trace s ++ [ActEncode (mkEvent (QUIT X) [] message false); ActClose]
  /\ hasQuit (state_ (client s')) = false
  /\ connected (state_ (client s')) = connected (state_ (client s))
  /\ reconnecting (state_ (client s')) = reconnecting (state_ (client s))
  /\ nick (state_ (client s')) = nick (state_ (client s))
  /\ Config_ (client s') = Config_ (client s)
  /\ tries (client s') = tries (client s).
Proof.
  intros Hconn. unfold Quit, Send. run.
  destruct (encode_ok X _); simpl; rewrite Hconn; simpl;
    rewrite <- ?app_assoc; simpl; repeat split; reflexivity.
Qed.

Lemma Quit_effect_witness :
  trace (snd (Quit working_transport "bye" connected_client))
  = [ActEncode (mkEvent "QUIT" [] "bye" false); ActClose]%string
  /\ connected (state_ (client (snd (Quit working_transport "bye"
                                          connected_client)))) = true.
Proof.
  destruct (Quit_effect working_transport "bye" connected_client 0%nat
              eq_refl) as (H1 & _ & H3 & _).
  split; [exact H1 | exact H3].
Defined.

(** Without the hypothesis on the connection. *)
Lemma Quit_trace (X : Externals) (message : string) (s : Sys) :
  trace (snd (Quit X message s))
  = trace s
    ++ ActEncode (mkEvent (QUIT X) [] message false)
       :: match conn (state_ (client s)) with
          | Some _ => [ActClose]
          | None => []
          end.
Proof.
  unfold Quit, Send. run.
  destruct (encode_ok X _); simpl;
    destruct (conn (state_ (client s))); simpl;
    rewrite <- ?app_assoc; reflexivity.
Qed.

(** *** [Reconnect] *)

Lemma send_all_trace (X : Externals) (events : list Event) (s : Sys) :
  exists sent,
    trace (snd (send_all X events s)) = trace s ++ map ActEncode sent.
Proof.
  revert s. induction events as [|e rest IH]; intros s; cbn [send_all].
  - exists []. cbn. now rewrite app_nil_r.
  - unfold bind. destruct (Send X e s) as [err s1] eqn:E.
    pose proof (Send_frame X e s) as [_ Ht]. rewrite E in Ht. cbn in Ht.
    destruct err; cbn.
    + exists [e]. exact Ht.
    + destruct (IH s1) as (sent & Hs). exists (e :: sent).
      rewrite Hs, Ht, <- app_assoc. reflexivity.
Qed.

(** [Connect] neither sleeps nor stops. *)
Lemma Connect_trace (X : Externals) (s : Sys) :
  exists added,
    trace (snd (Connect X s)) = trace s ++ added
    /\ Forall (fun a => is_sleep a = false /\ is_stop a = false) added.
Proof.
  assert (Henc : forall sent,
            Forall (fun a => is_sleep a = false /\ is_stop a = false)
                   (map ActEncode sent)).
  { induction sent; cbn; constructor; auto. }
  unfold Connect. run.
  destruct (String.eqb (Server (Config_ (client s))) "");
    [exists []; cbn; rewrite app_nil_r; auto|].
  destruct ((Port (Config_ (client s)) <? 21)
            || (Port (Config_ (client s)) >? 65535));
    [exists []; cbn; rewrite app_nil_r; auto|].
  destruct (negb (IsValidNick X (Nick (Config_ (client s))))
            || negb (IsValidUser X (User_ (Config_ (client s)))));
    [exists []; cbn; rewrite app_nil_r; auto|].
  unfold dial, connectMessages. run.
  destruct (Conn (Config_ (client s))) as [h|]; simpl.
  - destruct (String.eqb (Name (Config_ (client s))) ""); simpl;
      match goal with
      | [ |- context [send_all X ?evs ?s1] ] =>
          destruct (send_all_trace X evs s1) as (sent & Hs);
          destruct (send_all X evs s1) as [err s2]
      end;
      cbn in Hs; destruct err; cbn;
      [ exists (map ActEncode sent); split; [exact Hs | apply Henc]
      | exists (map ActEncode sent ++ [ActGoReadLoop]); split;
        [ rewrite Hs, <- app_assoc; reflexivity
        | apply Forall_app; split; [apply Henc | repeat constructor] ]
      | exists (map ActEncode sent); split; [exact Hs | apply Henc]
      | exists (map ActEncode sent ++ [ActGoReadLoop]); split;
        [ rewrite Hs, <- app_assoc; reflexivity
        | apply Forall_app; split; [apply Henc | repeat constructor] ] ].
  - destruct (dial_result X (dials (trace s))) as [h|]; simpl.
    + destruct (String.eqb (Name (Config_ (client s))) ""); simpl;
        match goal with
        | [ |- context [send_all X ?evs ?s1] ] =>
            destruct (send_all_trace X evs s1) as (sent & Hs);
            destruct (send_all X evs s1) as [err s2]
        end;
        cbn in Hs; destruct err; cbn;
        [ eexists (_ :: map ActEncode sent); split;
          [ rewrite Hs, <- app_assoc; reflexivity
          | constructor; [auto | apply Henc] ]
        | eexists (_ :: map ActEncode sent ++ [ActGoReadLoop]); split;
          [ rewrite Hs, <- !app_assoc; reflexivity
          | constructor; [auto|];
            apply Forall_app; split; [apply Henc | repeat constructor] ]
        | eexists (_ :: map ActEncode sent); split;
          [ rewrite Hs, <- app_assoc; reflexivity
          | constructor; [auto | apply Henc] ]
        | eexists (_ :: map ActEncode sent ++ [ActGoReadLoop]); split;
          [ rewrite Hs, <- !app_assoc; reflexivity
          | constructor; [auto|];
            apply Forall_app; split; [apply Henc | repeat constructor] ] ].
    + eexists [_]. split; [reflexivity | repeat constructor].
Qed.

(** The retry loop sleeps for the configured delay, and nothing else. *)
Lemma retry_loop_trace (fuel : nat) (err : option error) (s : Sys) :
  exists n,
    trace (snd (retry_loop fuel err s))
    = trace s ++ repeat (ActSleep (ReconnectDelay (Config_ (client s)))) n.
Proof.
  revert s. induction fuel as [|fuel IH]; intros s; simpl; run.
  - exists 0%nat. destruct (_ && _); cbn; now rewrite app_nil_r.
  - destruct (_ && _); simpl; [|exists 0%nat; cbn; now rewrite app_nil_r].
    match goal with
    | [ |- context [retry_loop fuel err ?s1] ] =>
        destruct (IH s1) as (n & Hn); rewrite Hn
    end.
    exists (S n). cbn. now rewrite <- app_assoc.
Qed.

Lemma long_sleeps_repeat (d : Z) (n : nat) :
  10 * Second <= d ->
  Forall (fun a => match a with
                   | ActSleep d' => 10 * Second <= d'
                   | _ => True
                   end) (repeat (ActSleep d) n).
Proof. intros H. induction n; cbn; constructor; auto. Qed.

Lemma long_sleeps_quiet (l : list action) :
  Forall (fun a => is_sleep a = false /\ is_stop a = false) l ->
  Forall (fun a => match a with
                   | ActSleep d' => 10 * Second <= d'
                   | _ => True
                   end) l.
Proof.
  intros H. induction H as [|a l [Ha _] _ IH]; constructor; auto.
  destruct a; auto. discriminate.
Qed.

(** X22.  [Reconnect] only adds to the trace, and every sleep it adds lasts at
    least ten seconds. *)
Theorem Reconnect_sleeps_at_least_ten_seconds (X : Externals) (s : Sys) :
  exists added,
    trace (snd (Reconnect X s)) = trace s ++ added
    /\ Forall (fun a => match a with
                        | ActSleep d => 10 * Second <= d
                        | _ => True
                        end) added.
Proof.
  unfold Reconnect, Reconnect_fuel, IsConnected, Stop. run.
  destruct (reconnecting (state_ (client s))); simpl;
    [exists []; rewrite app_nil_r; auto|].
  destruct (hasQuit (state_ (client s))); simpl;
    [exists []; rewrite app_nil_r; auto|].
  match goal with
  | [ |- context [ReconnectDelay ?c <? ?d] ] =>
      destruct (ReconnectDelay c <? d) eqn:Ed; simpl;
      [apply Z.ltb_lt in Ed | apply Z.ltb_ge in Ed]
  end.
  all: destruct (connected (state_ (client s))); simpl.
  all: try match goal with
    | [ |- context [Quit ?x ?m ?s1] ] =>
        pose proof (Quit_frame x m s1) as (Hq1 & _);
        pose proof (Quit_trace x m s1) as Hqt;
        destruct (Quit x m s1) as [[] sq]; simpl in *
    end.
  all: match goal with
    | [ |- context [MaxRetries ?c >? 0] ] =>
        destruct (MaxRetries c >? 0); simpl
    end.
  all: try match goal with
    | [ |- context [Connect ?x ?s1] ] =>
        pose proof (Connect_frame x s1) as (_ & Hcd & _);
        pose proof (Connect_trace x s1) as (addc & Hct & Hcq);
        destruct (Connect x s1) as [err sc]; simpl in *
    end.
  all: try match goal with
    | [ |- context [retry_loop ?f ?e ?s1] ] =>
        pose proof (retry_loop_trace f e s1) as (n & Hrt);
        destruct (retry_loop f e s1) as [[|] sr]; simpl in *
    end.
  all: try destruct err; simpl.
  all: rewrite ?Hrt, ?Hct, ?Hqt; repeat (rewrite <- app_assoc; simpl).
  all: eexists; split; [reflexivity|].
  all: rewrite ?Hcd, ?Hq1; simpl.
  all: repeat first
         [ apply Forall_nil
         | apply Forall_cons; [first [exact I | lia | unfold Second; lia]|]
         | apply Forall_app; split
         | apply long_sleeps_repeat; first [lia | unfold Second; lia]
         | apply long_sleeps_quiet; assumption
         | destruct (conn (state_ (client s))) ].
Qed.

(** X23.  A [Reconnect] that was not refused by its guard stops the client
    exactly when it returns an error: once then, and not at all when it
    returns nil. *)
Theorem Reconnect_stops_exactly_on_failure (X : Externals) (s : Sys) :
  reconnecting (state_ (client s)) = false ->
  let r := fst (Reconnect X s) in
  let s' := snd (Reconnect X s) in
  (r = Some None -> stops (trace s') = stops (trace s))
  /\ (forall e, r = Some (Some e) ->
        stops (trace s') = (stops (trace s) + 1)%nat).
Proof.
  intros Hrec. unfold Reconnect, Reconnect_fuel, IsConnected, Stop. run.
  rewrite Hrec. simpl.
  destruct (hasQuit (state_ (client s))); simpl;
    [split; [reflexivity | discriminate]|].
  match goal with
  | [ |- context [ReconnectDelay ?c <? ?d] ] =>
      destruct (ReconnectDelay c <? d); simpl
  end.
  all: destruct (connected (state_ (client s))); simpl.
  all: try match goal with
    | [ |- context [Quit ?x ?m ?s1] ] =>
        pose proof (Quit_frame x m s1) as (_ & _ & _ & Hq);
        destruct (Quit x m s1) as [[] sq]; simpl in *
    end.
  all: match goal with
    | [ |- context [MaxRetries ?c >? 0] ] =>
        destruct (MaxRetries c >? 0); simpl
    end.
  all: try (rewrite stops_snoc; simpl; split; [lia | discriminate]).
  all: match goal with
    | [ |- context [Connect ?x ?s1] ] =>
        pose proof (Connect_frame x s1) as (Hm & _ & _ & Hc & Ht);
        destruct (Connect x s1) as [err sc]; simpl in *
    end.
  all: match goal with
    | [ |- context [retry_loop ?f ?e ?s1] ] =>
        pose proof (retry_loop_frame f e s1) as (_ & Hr);
        destruct (retry_loop f e s1) as [[|] sr]; simpl in *
    end.
  all: destruct err; simpl.
  all: rewrite ?stops_snoc in *; simpl in *.
  all: split; [intros H | intros e0 H]; try discriminate; lia.
Qed.

Lemma Reconnect_stops_exactly_on_failure_witness :
  stops (trace (snd (Reconnect failing_transport connected_client)))
  = 1%nat.
Proof.
  apply (proj2 (Reconnect_stops_exactly_on_failure failing_transport
                  connected_client eq_refl) (ErrTransport 0)).
  reflexivity.
Defined.

(** X24.  With [MaxRetries] zero or negative, [Reconnect] never opens a
    transport and never stops the client: it returns nil and its last act
    is to close the event queue. *)
Theorem Reconnect_without_retries (X : Externals) (s : Sys) :
  reconnecting (state_ (client s)) = false ->
  hasQuit (state_ (client s)) = false ->
  MaxRetries (Config_ (client s)) <= 0 ->
  let s' := snd (Reconnect X s) in
  fst (Reconnect X s) = Some None
  /\ dials (trace s') = dials (trace s)
  /\ stops (trace s') = stops (trace s)
  /\ last (trace s') ActStop = ActCloseEvents.
Proof.
  intros Hrec Hq Hmax. unfold Reconnect, Reconnect_fuel, IsConnected. run.
  rewrite Hrec. simpl. rewrite Hq. simpl.
  assert (Hm : (MaxRetries (Config_ (client s)) >? 0) = false)
    by (rewrite Z.gtb_ltb; apply Z.ltb_ge; lia).
  match goal with
  | [ |- context [ReconnectDelay ?c <? ?d] ] =>
      destruct (ReconnectDelay c <? d); simpl
  end.
  all: destruct (connected (state_ (client s))); simpl.
  all: try match goal with
    | [ |- context [Quit ?x ?m ?s1] ] =>
        pose proof (Quit_frame x m s1) as (Hq1 & _ & Hq3 & Hq4);
        destruct (Quit x m s1) as [[] sq]; simpl in *
    end.
  all: rewrite ?Hq1; simpl; rewrite Hm; simpl.
  all: rewrite dials_snoc, stops_snoc, last_last; simpl.
  all: repeat split; lia.
Qed.

Lemma Reconnect_without_retries_witness :
  let s := mkSys (mkClient
                    (mkConfig "irc.example.org" 6667 "" "girc" "girc" ""
                              None false 0 0 false false false)
                    (mkState (Some 0%nat) true (Some 0) "" false false [])
                    (mkCaller [] 0) 0) [] 0 in
  fst (Reconnect working_transport s) = Some None
  /\ dials (trace (snd (Reconnect working_transport s))) = dials (trace s)
  /\ stops (trace (snd (Reconnect working_transport s))) = stops (trace s)
  /\ last (trace (snd (Reconnect working_transport s))) ActStop
     = ActCloseEvents.
Proof.
  intros s. apply (Reconnect_without_retries working_transport s);
    [reflexivity | reflexivity | cbn; lia].
Defined.

(** *** [Nick] and [GetNick] *)

(** X25.  After [Nick] with a valid, non-empty name on a connected client,
    [GetNick] returns that name, whether or not the write succeeded. *)
Theorem Nick_then_GetNick (X : Externals) (name_ : string) (s : Sys) :
  connected (state_ (client s)) = true ->
  IsValidNick X name_ = true ->
  name_ <> ""%string ->
  DisableTracking (Config_ (client s)) = false ->
  GetNick (client (snd (Nick_ X name_ s))) = Some name_.
Proof.
  intros Hc Hv Hne Ht. unfold Nick_, IsConnected, Send. run.
  rewrite Hc, Hv. simpl.
  destruct (encode_ok X _); simpl; unfold GetNick; simpl; rewrite Ht;
    apply String.eqb_neq in Hne; now rewrite Hne.
Qed.

Lemma Nick_then_GetNick_witness :
  GetNick (client (snd (Nick_ working_transport "girc2" connected_client)))
  = Some "girc2"%string.
Proof.
  apply (Nick_then_GetNick working_transport "girc2" connected_client);
    try reflexivity; discriminate.
Defined.

(** *** The outbound actions *)

(** X26.  On a disconnected client [Join], [Part], [Message], [Action],
    [Notice], [SendRaw], [Nick] and [Whowas] each return an error and
    change nothing: nothing is written and no callback is registered. *)
Theorem actions_need_connection (X : Externals) (Y : Externals2)
    (target text : string) (inbound : list Event) (s : Sys) :
  connected (state_ (client s)) = false ->
  (exists e, Join X Y target text s = (Some e, s))
  /\ (exists e, Part X Y target text s = (Some e, s))
  /\ (exists e, Message X Y target text s = (Some e, s))
  /\ (exists e, Action X Y target text s = (Some e, s))
  /\ (exists e, Notice X Y target text s = (Some e, s))
  /\ (exists e, SendRaw X Y text s = (Some e, s))
  /\ (exists e, Nick_ X target s = (Some e, s))
  /\ (exists e, Whowas X target inbound s = (([], Some e), s)).
Proof.
  intros Hc.
  unfold Join, Part, Message, Action, Notice, SendRaw, Nick_, Whowas,
    IsConnected.
  run.
  repeat split;
    repeat first
      [ progress (rewrite Hc; simpl)
      | match goal with
        | [ |- context [negb (IsValidChannel ?y ?t)] ] =>
            destruct (IsValidChannel y t); simpl
        | [ |- context [negb (IsValidNick ?x ?t)] ] =>
            destruct (IsValidNick x t); simpl
        | [ |- context [match ParseEvent ?y ?t with _ => _ end] ] =>
            destruct (ParseEvent y t); simpl
        end ];
    eexists; reflexivity.
Qed.

Lemma actions_need_connection_witness :
  exists e, Message working_transport sample_actions "#girc" "hello"
                    fresh_client = (Some e, fresh_client).
Proof.
  apply (actions_need_connection working_transport sample_actions
           "#girc" "hello" [] fresh_client).
  reflexivity.
Defined.

(** X27.  A target that fails the grammar check is refused with the
    invalid-target error that names it, before the connection is looked at
    and without any effect, by [Join], [Part], [Message], [Action],
    [Notice] and [Whowas]. *)
Theorem actions_refuse_invalid_target (X : Externals) (Y : Externals2)
    (target text : string) (inbound : list Event) (s : Sys) :
  (IsValidChannel Y target = false ->
   Join X Y target text s = (Some (ErrInvalidTarget target), s)
   /\ Part X Y target text s = (Some (ErrInvalidTarget target), s))
  /\ (IsValidNick X target = false -> IsValidChannel Y target = false ->
      Message X Y target text s = (Some (ErrInvalidTarget target), s)
      /\ Action X Y target text s = (Some (ErrInvalidTarget target), s)
      /\ Notice X Y target text s = (Some (ErrInvalidTarget target), s))
  /\ (IsValidNick X target = false ->
      Whowas X target inbound s = (([], Some (ErrInvalidTarget target)), s)).
Proof.
  unfold Join, Part, Message, Action, Notice, Whowas.
  repeat split; intros; repeat match goal with
                               | [ H : _ = false |- _ ] => rewrite H; clear H
                               end; reflexivity.
Qed.

Lemma actions_refuse_invalid_target_witness :
  Join working_transport sample_actions "girc" "" connected_client
  = (Some (ErrInvalidTarget "girc"), connected_client).
Proof.
  apply (actions_refuse_invalid_target working_transport sample_actions
           "girc" "" [] connected_client).
  reflexivity.
Defined.

(** X28.  On a connected client and for a valid target, [Message], [Notice],
    [Action] and [Join] write exactly one event and leave the client as it
    is; the event has the target as first parameter, and [Join] adds the
    password as a second parameter only if it is not empty. *)
Theorem actions_write_one_event (X : Externals) (Y : Externals2)
    (target text : string) (s : Sys) :
  connected (state_ (client s)) = true ->
  let wrote e s' :=
    client s' = client s /\ trace s' = trace s ++ [ActEncode e] in
  (IsValidNick X target = true \/ IsValidChannel Y target = true ->
   wrote (mkEvent (PRIVMSG Y) [target] text false)
         (snd (Message X Y target text s))
   /\ wrote (mkEvent (NOTICE Y) [target] text false)
            (snd (Notice X Y target text s))
   /\ wrote (mkEvent (PRIVMSG Y) [target] (action_text text) false)
            (snd (Action X Y target text s)))
  /\ (IsValidChannel Y target = true ->
      wrote (mkEvent (JOIN Y)
                     (if String.eqb text "" then [target] else [target; text])
                     "" false)
            (snd (Join X Y target text s))).
Proof.
  intros Hc wrote. subst wrote.
  unfold Message, Notice, Action, Join, IsConnected. run. split.
  - intros Hv.
    assert (Hb : negb (IsValidNick X target) && negb (IsValidChannel Y target)
                 = false)
      by (destruct Hv as [-> | ->]; simpl; rewrite ?andb_false_r; reflexivity).
    rewrite Hb. simpl. rewrite Hc. simpl.
    repeat split; first [apply Send_frame | apply (Send_frame X)].
  - intros Hv. rewrite Hv. simpl. rewrite Hc. simpl.
    destruct (String.eqb text ""); simpl; split; apply Send_frame.
Qed.

Lemma actions_write_one_event_witness :
  trace (snd (Join working_transport sample_actions "#girc" "key"
                   connected_client))
  = [ActEncode (mkEvent "JOIN" ["#girc"; "key"] "" false)]%string.
Proof.
  apply (proj2 (actions_write_one_event working_transport sample_actions
                  "#girc" "key" connected_client eq_refl)).
  reflexivity.
Defined.

(** *** [Whowas] *)




(** *** The earlier revision *)

(** X30.  The earlier revision of [Connect] refuses an empty server,
    nickname or user name and the port 0 with its configuration error,
    and leaves the client untouched: no transport is opened and nothing is
    sent. *)
Theorem Connect0_refuses_incomplete_config (X : Externals)
    (c : Client0.Client) :
  Client0.Server (Client0.Config_ c) = ""%string
  \/ Client0.Port (Client0.Config_ c) = 0
  \/ Client0.Nick (Client0.Config_ c) = ""%string
  \/ Client0.User_ (Client0.Config_ c) = ""%string ->
  let r := Client0.Connect X c in
  fst r = Some (errorsNew "invalid configuration (server/port/nick/user)")
  /\ snd r = c
  /\ dials (Client0.trace (snd r)) = dials (Client0.trace c)
  /\ encodes (Client0.trace (snd r)) = encodes (Client0.trace c).
Proof.
  intros H. unfold Client0.Connect.
  destruct H as [H|[H|[H|H]]]; rewrite H; simpl;
    rewrite ?orb_true_r; repeat split; reflexivity.
Qed.

Lemma Connect0_refuses_incomplete_config_witness :
  let c := Client0.mkClient
             (Client0.mkConfig "irc.example.org" 0 "" "girc" "girc" ""
                               false 2 false)
             Client0.NewState None 0 [] in
  fst (Client0.Connect failing_transport c)
  = Some (errorsNew "invalid configuration (server/port/nick/user)").
Proof.
  intros c.
  apply (Connect0_refuses_incomplete_config failing_transport c).
  right. left. reflexivity.
Defined.
End ExtraClient.
